(** * Run trees of the langchainplus SDK

    A shallow embedding of [langchainplus_sdk/run_trees.py] and
    [langchainplus_sdk/run_helpers.py]: the [RunTree] objects with their
    parent back-references, the process-wide [ThreadPoolExecutor] that
    carries the announcements, and the [run_tree] decorator; and a model
    of the generic serializer of the client.

    Python objects live in a store and are named by their address, so that
    the mutation that [end] performs on the parent of a run is visible
    through every reference to that parent. *)

From Stdlib Require Import ZArith Lia.
From stdpp Require Import gmap strings list fin_maps.

Set Warnings "-register-all".

Local Open Scope string_scope.
Local Open Scope list_scope.
Local Open Scope Z_scope.

(** * The embedding *)

(** ** Python values *)

(** Addresses of [RunTree] objects in the store. *)
Abbreviation addr := nat.

(** [uuid.UUID] values and [datetime] values; both are always truthy. *)
Definition UUID := N.
Definition datetime := Z.

(** The values that travel through [args], [kwargs] and the dictionaries of
    a run.  [VRun a] is a reference to the [RunTree] object at [a]; [VObj]
    is any other object, kept by its [str]. *)
Inductive Value : Type :=
| VNone
| VBool (b : bool)
| VInt (z : Z)
| VStr (s : string)
| VTuple (xs : list Value)
| VDict (kvs : list (string * Value))
| VRun (a : addr)
| VObj (repr : string).

(** [Dict] with string keys, as used for [inputs], [outputs], [extra] and
    [serialized]. *)
Abbreviation Dict := (gmap string Value).

(** Truth value of an [Optional[Dict]]: [None] and the empty dictionary are
    falsy. *)
Definition truthy (d : option Dict) : bool :=
  match d with
  | Some m => negb (bool_decide (m = ∅))
  | None => false
  end.

(** [d or {}] and the like. *)
Definition dict_or (d : option Dict) (dflt : Dict) : Dict :=
  match d with
  | Some m => if bool_decide (m = ∅) then dflt else m
  | None => dflt
  end.

(** [x or y] for an optional string: [None] and the empty string are
    falsy. *)
Definition str_or (x : option string) (y : string) : string :=
  match x with
  | Some s => if bool_decide (s = "") then y else s
  | None => y
  end.

(** A [str] or [None] as a value. *)
Definition opt_str (x : option string) : Value :=
  match x with
  | Some s => VStr s
  | None => VNone
  end.

(** ** The [RunTree] class (with the fields of [RunBase]) *)

Record RunTree : Type := mkRunTree {
  name : string;
  id : UUID;
  parent_run : option addr;
  child_runs : list addr;
  session_name : string;
  session_id : option UUID;
  execution_order : Z;
  child_execution_order : Z;
  client : nat;
  (* RunBase *)
  start_time : datetime;
  end_time : option datetime;
  extra : Dict;
  error : option string;
  serialized : Dict;
  inputs : Dict;
  outputs : option Dict;
  reference_example_id : option UUID;
  run_type : string;
  parent_run_id : option UUID
}.

Definition set_end_time (t : option datetime) (r : RunTree) : RunTree :=
  mkRunTree (name r) (id r) (parent_run r) (child_runs r) (session_name r)
    (session_id r) (execution_order r) (child_execution_order r) (client r)
    (start_time r) t (extra r) (error r) (serialized r) (inputs r)
    (outputs r) (reference_example_id r) (run_type r) (parent_run_id r).

Definition set_outputs (o : option Dict) (r : RunTree) : RunTree :=
  mkRunTree (name r) (id r) (parent_run r) (child_runs r) (session_name r)
    (session_id r) (execution_order r) (child_execution_order r) (client r)
    (start_time r) (end_time r) (extra r) (error r) (serialized r) (inputs r)
    o (reference_example_id r) (run_type r) (parent_run_id r).

Definition set_error (e : option string) (r : RunTree) : RunTree :=
  mkRunTree (name r) (id r) (parent_run r) (child_runs r) (session_name r)
    (session_id r) (execution_order r) (child_execution_order r) (client r)
    (start_time r) (end_time r) (extra r) e (serialized r) (inputs r)
    (outputs r) (reference_example_id r) (run_type r) (parent_run_id r).

Definition set_child_execution_order (n : Z) (r : RunTree) : RunTree :=
  mkRunTree (name r) (id r) (parent_run r) (child_runs r) (session_name r)
    (session_id r) (execution_order r) n (client r)
    (start_time r) (end_time r) (extra r) (error r) (serialized r) (inputs r)
    (outputs r) (reference_example_id r) (run_type r) (parent_run_id r).

Definition set_child_runs (l : list addr) (r : RunTree) : RunTree :=
  mkRunTree (name r) (id r) (parent_run r) l (session_name r)
    (session_id r) (execution_order r) (child_execution_order r) (client r)
    (start_time r) (end_time r) (extra r) (error r) (serialized r) (inputs r)
    (outputs r) (reference_example_id r) (run_type r) (parent_run_id r).

(** ** Exceptions *)

(** The class of a raised object.  [NonException] stands for the classes
    that derive from [BaseException] only ([KeyboardInterrupt],
    [SystemExit], ...), which [except Exception] lets through. *)
Inductive ExcClass : Type :=
| TypeError
| RuntimeError
| AttributeError
| OtherException (cls : string)
| NonException (cls : string).

Record Exn : Type := mkExn { exc_class : ExcClass; exc_str : string }.

(** [isinstance(e, Exception)]. *)
Definition is_Exception (e : Exn) : bool :=
  match exc_class e with
  | NonException _ => false
  | _ => true
  end.

(** ** [concurrent.futures]: tasks, executors and futures *)

(** A unit of work handed to the executor: the bound client method and its
    keyword arguments, evaluated at [submit] time. *)
Inductive Task : Type :=
| create_run (kwargs : RunTree) (exclude_child_runs : bool)
| update_run (run_id : UUID) (outputs_ : option Dict) (error_ : option string)
    (parent_run_id_ : option UUID) (reference_example_id_ : option UUID).

(** An executor with its queue of work not yet run and its shut-down
    flag. *)
Record Executor : Type := mkExecutor {
  max_workers : nat;
  pending : list Task;
  accepted : nat;
  shut_down : bool
}.

(** A [Future]: the executor it belongs to and its rank in that executor's
    submissions. *)
Record Future : Type := mkFuture { fut_executor : nat; fut_rank : nat }.

(** ** The world *)

(** Everything the module can read or change: the store of [RunTree]
    objects, the executors created so far, the module global
    [_THREAD_POOL_EXECUTOR], the calls that reached the client, and the
    environment ([datetime.utcnow], [uuid4], client construction), whose
    successive readings are given by an oracle and a count of the readings
    made. *)
Record World : Type := mkWorld {
  heap : list RunTree;
  executors : list Executor;
  _THREAD_POOL_EXECUTOR : option nat;
  transport : list Task;
  utcnow_at : nat → datetime;
  clock_reads : nat;
  uuid4_at : nat → UUID;
  uuid4_calls : nat;
  clients : nat
}.

Definition set_heap (h : list RunTree) (w : World) : World :=
  mkWorld h (executors w) (_THREAD_POOL_EXECUTOR w) (transport w)
    (utcnow_at w) (clock_reads w) (uuid4_at w) (uuid4_calls w) (clients w).

Definition set_executors (l : list Executor) (w : World) : World :=
  mkWorld (heap w) l (_THREAD_POOL_EXECUTOR w) (transport w)
    (utcnow_at w) (clock_reads w) (uuid4_at w) (uuid4_calls w) (clients w).

Definition set_global (g : option nat) (w : World) : World :=
  mkWorld (heap w) (executors w) g (transport w)
    (utcnow_at w) (clock_reads w) (uuid4_at w) (uuid4_calls w) (clients w).

Definition set_transport (t : list Task) (w : World) : World :=
  mkWorld (heap w) (executors w) (_THREAD_POOL_EXECUTOR w) t
    (utcnow_at w) (clock_reads w) (uuid4_at w) (uuid4_calls w) (clients w).

Definition set_clock_reads (n : nat) (w : World) : World :=
  mkWorld (heap w) (executors w) (_THREAD_POOL_EXECUTOR w) (transport w)
    (utcnow_at w) n (uuid4_at w) (uuid4_calls w) (clients w).

Definition set_uuid4_calls (n : nat) (w : World) : World :=
  mkWorld (heap w) (executors w) (_THREAD_POOL_EXECUTOR w) (transport w)
    (utcnow_at w) (clock_reads w) (uuid4_at w) n (clients w).

Definition set_clients (n : nat) (w : World) : World :=
  mkWorld (heap w) (executors w) (_THREAD_POOL_EXECUTOR w) (transport w)
    (utcnow_at w) (clock_reads w) (uuid4_at w) (uuid4_calls w) n.

(** ** Computations *)

(** The result of running a piece of Python: a value, a raised exception, or
    [Fault] when the model is asked to follow an address that the store
    does not hold (which no Python reference can do). *)
Inductive Res (A : Type) : Type :=
| Val (a : A) (w : World)
| Exc (e : Exn) (w : World)
| Fault.
Arguments Val {A} a w.
Arguments Exc {A} e w.
Arguments Fault {A}.

(** A computation: from the world before to the result and the world
    after. *)
Definition M (A : Type) : Type := World → Res A.

Definition ret {A} (a : A) : M A := fun w => Val a w.

Definition bind {A B} (m : M A) (k : A → M B) : M B :=
  fun w =>
    match m w with
    | Val a w' => k a w'
    | Exc e w' => Exc e w'
    | Fault => Fault
    end.

Definition raise {A} (e : Exn) : M A := fun w => Exc e w.

Declare Scope py_scope.
Delimit Scope py_scope with py.
Notation "x <- m ;; k" := (bind m (fun x => k))
  (at level 100, m at next level, right associativity) : py_scope.
Notation "m ;;; k" := (bind m (fun _ => k))
  (at level 100, right associativity) : py_scope.
Local Open Scope py_scope.

(** [try: body except Exception as e: handler e]. *)
Definition try_except {A} (body : M A) (handler : Exn → M A) : M A :=
  fun w =>
    match body w with
    | Exc e w' => if is_Exception e then handler e w' else Exc e w'
    | r => r
    end.

(** [datetime.utcnow()]. *)
Definition utcnow : M datetime :=
  fun w =>
    Val (utcnow_at w (clock_reads w)) (set_clock_reads (S (clock_reads w)) w).

(** [uuid4()]. *)
Definition uuid4 : M UUID :=
  fun w =>
    Val (uuid4_at w (uuid4_calls w)) (set_uuid4_calls (S (uuid4_calls w)) w).

(** [LangChainPlusClient()], the default factory of the [client] field. *)
Definition LangChainPlusClient : M nat :=
  fun w => Val (clients w) (set_clients (S (clients w)) w).

(** [x or f()] for an optional [x] whose values are always truthy: [f] is
    only called when [x] is [None]. *)
Definition or_call {A} (x : option A) (f : M A) : M A :=
  match x with
  | Some a => ret a
  | None => f
  end.

(** Reading the attributes of the object at [a]. *)
Definition get (a : addr) : M RunTree :=
  fun w =>
    match heap w !! a with
    | Some r => Val r w
    | None => Fault
    end.

(** Assigning to attributes of the object at [a]. *)
Definition modify (a : addr) (f : RunTree → RunTree) : M unit :=
  fun w =>
    match heap w !! a with
    | Some r => Val tt (set_heap (<[a := f r]> (heap w)) w)
    | None => Fault
    end.

(** Modelled from the spec: the constructor of [RunTree], whose base class
    [RunBase] and validator [infer_default_run_values] are in
    [langchainplus_sdk.schemas], outside these sources.  It stores the
    fields it is given in a new object and returns the reference. *)
Definition new_RunTree (r : RunTree) : M addr :=
  fun w => Val (length (heap w)) (set_heap (heap w ++ [r]) w).

(** ** [run_trees.py]: the module global and its executor *)

(** [ThreadPoolExecutor(max_workers=n)]. *)
Definition ThreadPoolExecutor (n : nat) : M nat :=
  fun w =>
    Val (length (executors w))
      (set_executors (executors w ++ [mkExecutor n [] 0 false]) w).

(** Reading and assigning the module global [_THREAD_POOL_EXECUTOR]. *)
Definition read_global : M (option nat) :=
  fun w => Val (_THREAD_POOL_EXECUTOR w) w.

Definition write_global (g : option nat) : M unit :=
  fun w => Val tt (set_global g w).

(** [Executor.submit]: refused once the executor is shut down.  Calling it
    on [None] is an [AttributeError]. *)
Definition submit (executor : option nat) (t : Task) : M Future :=
  match executor with
  | None => raise (mkExn AttributeError
                     "'NoneType' object has no attribute 'submit'")
  | Some i =>
      fun w =>
        match executors w !! i with
        | None => Fault
        | Some ex =>
            if shut_down ex then
              Exc (mkExn RuntimeError
                     "cannot schedule new futures after shutdown") w
            else
              Val (mkFuture i (accepted ex))
                (set_executors
                   (<[i := mkExecutor (max_workers ex) (pending ex ++ [t])
                             (S (accepted ex)) false]> (executors w)) w)
        end
  end.

(** One task run by the worker thread of executor [i]: the oldest pending
    call reaches the client. *)
Definition worker_step (i : nat) : M unit :=
  fun w =>
    match executors w !! i with
    | Some ex =>
        match pending ex with
        | t :: rest =>
            Val tt
              (set_transport (transport w ++ [t])
                 (set_executors
                    (<[i := mkExecutor (max_workers ex) rest (accepted ex)
                              (shut_down ex)]> (executors w)) w))
        | [] => Val tt w
        end
    | None => Fault
    end.

(** [Executor.shutdown(wait=True)]: no new work is accepted, and the call
    returns when the worker has run everything that was pending. *)
Definition shutdown (i : nat) : M unit :=
  fun w =>
    match executors w !! i with
    | Some ex =>
        Val tt
          (set_transport (transport w ++ pending ex)
             (set_executors
                (<[i := mkExecutor (max_workers ex) [] (accepted ex) true]>
                   (executors w)) w))
    | None => Fault
    end.

(** [_ensure_thread_pool()].  It returns the module global, whatever it
    holds when line 24 reads it. *)
Definition _ensure_thread_pool : M (option nat) :=
  g <- read_global ;;
  match g with
  | None => ex <- ThreadPoolExecutor 1 ;; write_global (Some ex)
  | Some _ => ret tt
  end ;;;
  read_global.

(** [await_all_runs()]. *)
Definition await_all_runs : M unit :=
  g <- read_global ;;
  match g with
  | Some ex => shutdown ex ;;; write_global None
  | None => ret tt
  end.

(** ** [run_trees.py]: the methods of [RunTree] *)

(** [RunTree.end]: the three keyword arguments default to [None]. *)
Definition end_ (self : addr) (outputs : option Dict) (error : option string)
    (end_time : option datetime) : M unit :=
  t <- or_call end_time utcnow ;;
  modify self (set_end_time (Some t)) ;;;
  match outputs with
  | Some o => modify self (set_outputs (Some o))
  | None => ret tt
  end ;;;
  match error with
  | Some e => modify self (set_error (Some e))
  | None => ret tt
  end ;;;
  r <- get self ;;
  match parent_run r with
  | Some p =>
      pr <- get p ;;
      r' <- get self ;;
      modify p
        (set_child_execution_order
           (Z.max (child_execution_order pr) (child_execution_order r')))
  | None => ret tt
  end.

(** The keyword-only arguments of [create_child], all [None] by default. *)
Record Kwargs : Type := mkKwargs {
  kw_run_id : option UUID;
  kw_serialized : option Dict;
  kw_inputs : option Dict;
  kw_outputs : option Dict;
  kw_error : option string;
  kw_reference_example_id : option UUID;
  kw_start_time : option datetime;
  kw_end_time : option datetime;
  kw_extra : option Dict
}.

(** No keyword argument passed. *)
Definition no_kwargs : Kwargs :=
  mkKwargs None None None None None None None None None.

(** [RunTree.create_child].  The constructor is given [parent_run]; the
    [parent_run_id] that [patch] sends is taken to be the [id] of that
    parent (the validator that fills it in is outside these sources). *)
Definition create_child (self : addr) (name : string) (run_type : string)
    (kw : Kwargs) : M addr :=
  p <- get self ;;
  let execution_order := child_execution_order p + 1 in
  let serialized_ := dict_or (kw_serialized kw) {[ "name" := VStr name ]} in
  run_id <- or_call (kw_run_id kw) uuid4 ;;
  start_time <- or_call (kw_start_time kw) utcnow ;;
  end_time <- or_call (kw_end_time kw) utcnow ;;
  run <- new_RunTree
           (mkRunTree name run_id (Some self) [] (session_name p) None
              execution_order execution_order (client p)
              start_time (Some end_time) (dict_or (kw_extra kw) ∅)
              (kw_error kw) serialized_ (dict_or (kw_inputs kw) ∅)
              (Some (dict_or (kw_outputs kw) ∅))
              (kw_reference_example_id kw) run_type (Some (id p))) ;;
  modify self (fun r => set_child_runs (child_runs r ++ [run]) r) ;;;
  ret run.

(** Modelled from the spec: a [RunTree(...)] call that names no parent, as
    the decorator makes it.  The defaults of the fields that [RunTree]
    itself declares are those of the class ([execution_order] and
    [child_execution_order] 1, a fresh [id], a fresh client, the session
    name "default"); those of [RunBase], which is outside these sources,
    follow the data model of the spec: [start_time] is the time of
    creation and [end_time] stays unset. *)
Definition root_RunTree (name : string) (run_type : string)
    (session_name : option string) (session_id : option UUID)
    (kw : Kwargs) : M addr :=
  run_id <- or_call (kw_run_id kw) uuid4 ;;
  c <- LangChainPlusClient ;;
  start_time <- or_call (kw_start_time kw) utcnow ;;
  new_RunTree
    (mkRunTree name run_id None [] (default "default" session_name) session_id
       1 1 c start_time (kw_end_time kw) (default ∅ (kw_extra kw))
       (kw_error kw) (default ∅ (kw_serialized kw))
       (default ∅ (kw_inputs kw)) (kw_outputs kw)
       (kw_reference_example_id kw) run_type None).

(** [RunTree.post]. *)
Definition post (self : addr) (exclude_child_runs : bool) : M Future :=
  executor <- _ensure_thread_pool ;;
  kwargs <- get self ;;
  submit executor (create_run kwargs exclude_child_runs).

(** [RunTree.patch]. *)
Definition patch (self : addr) : M Future :=
  executor <- _ensure_thread_pool ;;
  r <- get self ;;
  submit executor
    (update_run (id r) (if truthy (outputs r) then outputs r else None)
       (error r) (parent_run_id r) (reference_example_id r)).

(** ** [run_helpers.py]: the [run_tree] decorator *)

(** A Python callable: its [__name__], whether its signature has a
    parameter called [run], and what calling it with positional and keyword
    arguments does.  The body is arbitrary user code: it may change the
    world and may raise. *)
Record PyFunc : Type := mkPyFunc {
  __name__ : string;
  has_run_parameter : bool;
  call : list Value → Dict → M Value
}.

(** [_get_inputs]: the positional and the keyword arguments of the call. *)
Definition _get_inputs (args : list Value) (kwargs : Dict) : Dict :=
  {[ "args" := VTuple args; "kwargs" := VDict (map_to_list kwargs) ]}.

(** [{**a, **b}]: the keys of both, with the value of [b] where both have
    one. *)
Definition dict_merge (a b : Dict) : Dict := b ∪ a.

Section decorated.

(** The arguments of [run_tree], with [extra_outer = extra or {}], and
    the decorated function. *)
Variables (run_type : string) (name : option string)
  (serialized : option Dict) (extra_outer : Dict) (func : PyFunc).

(** Lines 42 to 72 of [wrapper]: the run of this call is created, as a
    child of the run passed in [kwargs] if there is one, and announced.
    Returns the run and the keyword arguments left for [func]. *)
Definition start_run (args : list Value) (session_name : option string)
    (session_id reference_example_id run_id : option UUID)
    (extra : option Dict) (kwargs : Dict) : M (addr * Dict) :=
  let name_ := str_or name (__name__ func) in
  let extra_inner :=
    if truthy extra then dict_merge extra_outer (default ∅ extra)
    else extra_outer in
  started <-
    match kwargs !! "run" with
    | Some run =>
        let kwargs := delete "run" kwargs in
        match run with
        | VRun run =>
            let inputs := _get_inputs args kwargs in
            child_run <- create_child run name_ run_type
                           (mkKwargs run_id serialized (Some inputs) None
                              None None None None (Some extra_inner)) ;;
            ret (child_run, kwargs)
        | _ => raise (mkExn TypeError "run must be a RunTree")
        end
    | None =>
        let inputs := _get_inputs args kwargs in
        child_run <- root_RunTree name_ run_type session_name session_id
                       (mkKwargs None
                          (Some (dict_or serialized
                                   {[ "name" := opt_str name ]}))
                          (Some inputs) None None reference_example_id None
                          None (Some extra_inner)) ;;
        ret (child_run, kwargs)
    end ;;
  post started.1 true ;;;
  ret started.

(** Lines 74 to 80: the call of [func], which gets the run when its
    signature asks for it. *)
Definition call_func (args : list Value) (child_run : addr) (kwargs : Dict)
    : M Value :=
  if has_run_parameter func then
    call func args (<[ "run" := VRun child_run ]> kwargs)
  else
    call func args kwargs.

(** [wrapper], the function that replaces [func]. *)
Definition wrapper (args : list Value) (session_name : option string)
    (session_id reference_example_id run_id : option UUID)
    (extra : option Dict) (kwargs : Dict) : M Value :=
  started <- start_run args session_name session_id reference_example_id
               run_id extra kwargs ;;
  let child_run := started.1 in
  let kwargs := started.2 in
  function_result <-
    try_except (call_func args child_run kwargs)
      (fun e =>
         end_ child_run None (Some (exc_str e)) None ;;;
         patch child_run ;;;
         raise e) ;;
  end_ child_run (Some {[ "output" := function_result ]}) None None ;;;
  patch child_run ;;;
  ret function_result.

End decorated.

(** [run_tree(run_type, name=..., serialized=..., extra=...)(func)]. *)
Definition run_tree (run_type : string) (name : option string)
    (serialized extra : option Dict) (func : PyFunc) :=
  let extra_outer := dict_or extra ∅ in
  wrapper run_type name serialized extra_outer func.

(** ** The generic serializer *)

(** JSON-safe values. *)
Inductive JSON : Type :=
| JNull
| JBool (b : bool)
| JNum (z : Z)
| JStr (s : string)
| JList (xs : list JSON)
| JObject (kvs : list (string * JSON)).

(** What an object lets the serializer see of it, one field per strategy
    of the serializer, in the order in which they are tried.  A capability
    that runs code of the object ([sh_export], [sh_tagged]) may fail, which
    is the inner [None]. *)
Record Shape (V : Type) : Type := mkShape {
  sh_datetime : option string;
  sh_enum : option V;
  sh_uuid : option string;
  sh_export : option (option (list (string * V)));
  sh_fields : option (list (string * V));
  sh_tagged : option (option (list (string * V)));
  sh_slots : option (list (string * V));
  sh_dict : option (list (string * V));
  sh_namedtuple : option (list (string * V));
  sh_str : string
}.
Arguments mkShape {V}.
Arguments sh_datetime {V}.
Arguments sh_enum {V}.
Arguments sh_uuid {V}.
Arguments sh_export {V}.
Arguments sh_fields {V}.
Arguments sh_tagged {V}.
Arguments sh_slots {V}.
Arguments sh_dict {V}.
Arguments sh_namedtuple {V}.
Arguments sh_str {V}.

(** The values handed to the serializer: the JSON primitives, the native
    containers, and objects. *)
Inductive PyVal : Type :=
| PNone
| PBool (b : bool)
| PNum (z : Z)
| PStr (s : string)
| PList (xs : list PyVal)
| PMap (kvs : list (string * PyVal))
| PObject (o : Shape PyVal).

(** Modelled from the spec: the generic serializer [_serialize_json] of the
    client module, which is outside these sources (only its test is
    there).  The strategies are those of section 4.1 of the spec, tried in
    its order, the first that applies deciding: primitives and containers
    pass through, their elements converted; then date and time, enumerated
    value, unique identifier, export as mapping, declared fields, tagged
    record, slots, attribute dictionary, named tuple; at last the string
    form.  A capability that fails gives the string form of the object. *)
Fixpoint serialize (v : PyVal) : JSON :=
  match v with
  | PNone => JNull
  | PBool b => JBool b
  | PNum z => JNum z
  | PStr s => JStr s
  | PList xs => JList (map serialize xs)
  | PMap kvs => JObject (map (fun kv => (kv.1, serialize kv.2)) kvs)
  | PObject o =>
      let mapping fs := JObject (map (fun kv => (kv.1, serialize kv.2)) fs) in
      match sh_datetime o with
      | Some iso => JStr iso
      | None =>
      match sh_enum o with
      | Some value => serialize value
      | None =>
      match sh_uuid o with
      | Some u => JStr u
      | None =>
      match sh_export o with
      | Some (Some fs) => mapping fs
      | Some None => JStr (sh_str o)
      | None =>
      match sh_fields o with
      | Some fs => mapping fs
      | None =>
      match sh_tagged o with
      | Some (Some fs) => mapping fs
      | Some None => JStr (sh_str o)
      | None =>
      match sh_slots o with
      | Some fs => mapping fs
      | None =>
      match sh_dict o with
      | Some fs => mapping fs
      | None =>
      match sh_namedtuple o with
      | Some fs => JList (map (fun kv => serialize kv.2) fs)
      | None => JStr (sh_str o)
      end end end end end end end end end
  end.

(** * The vocabulary of the properties *)

(** ** Programs over the interface *)

(** The calls that application code can make, and the progress of the
    worker thread. *)
Inductive Op : Type :=
| ORunTree (name run_type : string) (session_name : option string)
    (session_id : option UUID) (kw : Kwargs)
| OCreateChild (self : addr) (name run_type : string) (kw : Kwargs)
| OEnd (self : addr) (outputs : option Dict) (error : option string)
    (end_time : option datetime)
| OPost (self : addr) (exclude_child_runs : bool)
| OPatch (self : addr)
| OAwaitAllRuns
| OWorker (i : nat).

(** A call whose result is not used. *)
Definition forget {A} (m : M A) : M unit := _ <- m ;; ret tt.

Definition exec (op : Op) : M unit :=
  match op with
  | ORunTree n rt sn si kw => forget (root_RunTree n rt sn si kw)
  | OCreateChild self n rt kw => forget (create_child self n rt kw)
  | OEnd self o e t => end_ self o e t
  | OPost self x => forget (post self x)
  | OPatch self => forget (patch self)
  | OAwaitAllRuns => await_all_runs
  | OWorker i => worker_step i
  end.

(** The world after a call; a call that raises leaves the world as it was
    when the exception left it, and the program goes on.  A call on an
    address that the store does not hold is not a call that a Python
    program can make, and counts for nothing. *)
Definition after (op : Op) (w : World) : World :=
  match exec op w with
  | Val _ w' => w'
  | Exc _ w' => w'
  | Fault => w
  end.

(** A program: calls made one after the other. *)
Definition run (ops : list Op) (w : World) : World :=
  fold_left (fun w op => after op w) ops w.

(** A process that has not yet created any run or executor. *)
Definition fresh_world (clock : nat → datetime) (uuids : nat → UUID) : World :=
  mkWorld [] [] None [] clock 0%nat uuids 0%nat 0%nat.

(** The worlds that programs over the interface produce. *)
Definition reachable (w : World) : Prop :=
  ∃ clock uuids ops, w = run ops (fresh_world clock uuids).

(** ** Threads inside [_ensure_thread_pool] *)

(** A thread inside [_ensure_thread_pool], by the line it is about to
    run: the test of line 22, the creation and assignment of line 23, the
    [return] of line 24, or back in its caller with the value returned. *)
Inductive Pc : Type :=
| AtTest
| AtCreate
| AtReturn
| Returned (executor : option nat).

(** One line of [_ensure_thread_pool], run without interruption.  The
    function takes no lock, so nothing here waits for another thread. *)
Definition thread_step (pc : Pc) : M Pc :=
  match pc with
  | AtTest =>
      g <- read_global ;;
      ret (match g with None => AtCreate | Some _ => AtReturn end)
  | AtCreate =>
      ex <- ThreadPoolExecutor 1 ;;
      write_global (Some ex) ;;;
      ret AtReturn
  | AtReturn => g <- read_global ;; ret (Returned g)
  | Returned g => ret (Returned g)
  end.

(** The threads of the process and the world they share; the scheduler
    picks the thread that runs the next line. *)
Definition sched_step (i : nat) (cfg : list Pc * World) : list Pc * World :=
  match cfg.1 !! i with
  | Some pc =>
      match thread_step pc cfg.2 with
      | Val pc' w' => (<[i := pc']> cfg.1, w')
      | _ => cfg
      end
  | None => cfg
  end.

(** A schedule: the threads that run, line after line. *)
Definition run_schedule (sched : list nat) (cfg : list Pc * World)
    : list Pc * World :=
  fold_left (fun c i => sched_step i c) sched cfg.

(** The schedule in which [k] threads, numbered from [j], call
    [_ensure_thread_pool] one after the other. *)
Definition one_by_one (j k : nat) : list nat :=
  flat_map (fun i => [i; i; i]) (seq j k).

(** ** Effects on the store *)

(** The clock after an [x or datetime.utcnow()]: read once when [x] is
    [None]. *)
Definition tick_unless (t : option datetime) (w : World) : World :=
  match t with
  | Some _ => w
  | None => set_clock_reads (S (clock_reads w)) w
  end.

(** The identifier supply after an [x or uuid4()]. *)
Definition draw_unless (u : option UUID) (w : World) : World :=
  match u with
  | Some _ => w
  | None => set_uuid4_calls (S (uuid4_calls w)) w
  end.

(** The run after lines 69 to 73 of [end]. *)
Definition ended (t : datetime) (o : option Dict) (e : option string)
    (r : RunTree) : RunTree :=
  let r1 := set_end_time (Some t) r in
  let r2 := match o with Some _ => set_outputs o r1 | None => r1 end in
  match e with Some _ => set_error e r2 | None => r2 end.

(** The object that [create_child] constructs, from the parent [p] at
    [self] and the three environment readings. *)
Definition child_record (self : addr) (p : RunTree) (nm rt : string)
    (kw : Kwargs) (run_id : UUID) (st et : datetime) : RunTree :=
  mkRunTree nm run_id (Some self) [] (session_name p) None
    (child_execution_order p + 1) (child_execution_order p + 1) (client p)
    st (Some et) (dict_or (kw_extra kw) ∅) (kw_error kw)
    (dict_or (kw_serialized kw) {[ "name" := VStr nm ]})
    (dict_or (kw_inputs kw) ∅) (Some (dict_or (kw_outputs kw) ∅))
    (kw_reference_example_id kw) rt (Some (id p)).

(** The object that [root_RunTree] constructs. *)
Definition root_record (nm rt : string) (sn : option string)
    (si : option UUID) (kw : Kwargs) (run_id : UUID) (c : nat)
    (st : datetime) : RunTree :=
  mkRunTree nm run_id None [] (default "default" sn) si 1 1 c st
    (kw_end_time kw) (default ∅ (kw_extra kw)) (kw_error kw)
    (default ∅ (kw_serialized kw)) (default ∅ (kw_inputs kw))
    (kw_outputs kw) (kw_reference_example_id kw) rt None.

(** Computations that leave the store of runs as it is, whether they
    return or raise. *)
Definition heap_const {A} (m : M A) : Prop :=
  ∀ w, match m w with
       | Val _ w' | Exc _ w' => heap w' = heap w
       | Fault => True
       end.

(** What a call can do to the store: nothing, or add a root, or add a
    child and record it in its parent, or end a run without a parent, or
    end a run and raise the counter of its parent. *)
Inductive heap_change (w : World) (op : Op) : list RunTree → Prop :=
| change_none :
    heap_change w op (heap w)
| change_root (r0 : RunTree) :
    parent_run r0 = None →
    (∃ nm rt sn si kw, op = ORunTree nm rt sn si kw
                       ∧ end_time r0 = kw_end_time kw) →
    heap_change w op (heap w ++ [r0])
| change_child (self : addr) (p c : RunTree) (nm rt : string) (kw : Kwargs) :
    op = OCreateChild self nm rt kw →
    heap w !! self = Some p →
    (∃ u st et, c = child_record self p nm rt kw u st et) →
    heap_change w op
      (<[self := set_child_runs (child_runs p ++ [length (heap w)]) p]>
         (heap w ++ [c]))
| change_end_root (self : addr) (r : RunTree) o e t :
    op = OEnd self o e t →
    heap w !! self = Some r →
    parent_run r = None →
    heap_change w op
      (<[self := ended (default (utcnow_at w (clock_reads w)) t) o e r]>
         (heap w))
| change_end (self p : addr) (r pr : RunTree) o e t :
    op = OEnd self o e t →
    heap w !! self = Some r →
    parent_run r = Some p →
    <[self := ended (default (utcnow_at w (clock_reads w)) t) o e r]>
      (heap w) !! p = Some pr →
    heap_change w op
      (<[p := set_child_execution_order
                (Z.max (child_execution_order pr) (child_execution_order r))
                pr]>
         (<[self := ended (default (utcnow_at w (clock_reads w)) t) o e r]>
            (heap w))).

(** [ends_child_of w p op]: the call [op], made in [w], is [end] on a run
    whose parent is [p]. *)
Definition ends_child_of (w : World) (p : addr) (op : Op) : bool :=
  match op with
  | OEnd c _ _ _ =>
      match heap w !! c with
      | Some rc => bool_decide (parent_run rc = Some p)
      | None => false
      end
  | _ => false
  end.

(** How one call can change a run that exists before it. *)
Record evolves (w : World) (op : Op) (m : addr) (r r' : RunTree) : Prop := {
  ev_execution_order : execution_order r' = execution_order r;
  ev_parent_run : parent_run r' = parent_run r;
  ev_id : id r' = id r;
  ev_end_time : end_time r' = end_time r ∨ ∃ o e t, op = OEnd m o e t;
  ev_child_execution_order :
    child_execution_order r' = child_execution_order r
    ∨ ends_child_of w m op = true;
  ev_counter_grows : child_execution_order r ≤ child_execution_order r'
}.

(** [ends m op]: the call [op] is [end] on the run [m]. *)
Definition ends (m : addr) (op : Op) : bool :=
  match op with
  | OEnd self _ _ _ => bool_decide (self = m)
  | _ => false
  end.

(** [no_end_on m ops]: the program [ops] never calls [end] on [m]. *)
Definition no_end_on (m : addr) (ops : list Op) : bool :=
  forallb (fun op => negb (ends m op)) ops.

(** [quiet_for p ops w]: running [ops] from [w], no call is [end] on a run
    whose parent is [p]. *)
Fixpoint quiet_for (p : addr) (ops : list Op) (w : World) : bool :=
  match ops with
  | [] => true
  | op :: ops' => negb (ends_child_of w p op) && quiet_for p ops' (after op w)
  end.

(** Parents are older than their children: the back-references form a
    forest. *)
Definition tree_shaped (h : list RunTree) : Prop :=
  ∀ a r p, h !! a = Some r → parent_run r = Some p → (p < a)%nat.

(** ** States of the submission channel *)

(** The module global, when set, names an executor that exists. *)
Definition pool_valid (w : World) : Prop :=
  match _THREAD_POOL_EXECUTOR w with
  | Some i => is_Some (executors w !! i)
  | None => True
  end.

(** The executor that the module global names, if any, has not been shut
    down. *)
Definition pool_live (w : World) : Prop :=
  match _THREAD_POOL_EXECUTOR w with
  | Some i => ∃ ex, executors w !! i = Some ex ∧ shut_down ex = false
  | None => True
  end.

(** The run [c] can be ended and patched: it and its parent are in the
    store, and the executor that the module global names, if any, is not
    shut down. *)
Definition usable (w : World) (c : addr) : Prop :=
  (∃ node, heap w !! c = Some node
           ∧ ∀ p, parent_run node = Some p → is_Some (heap w !! p))
  ∧ pool_live w.

(** Computations that keep the module global pointing to a live
    executor. *)
Definition keeps_pool_live {A} (m : M A) : Prop :=
  ∀ w, pool_live w →
       match m w with
       | Val _ w' | Exc _ w' => pool_live w'
       | Fault => True
       end.

(** ** Shapes seen by the serializer *)

(** [named_tuple_like o]: the fields of [o] when the first strategy that
    applies to it is that of named tuples. *)
Definition named_tuple_like (o : Shape PyVal)
    : option (list (string * PyVal)) :=
  match sh_datetime o, sh_enum o, sh_uuid o, sh_export o, sh_fields o,
        sh_tagged o, sh_slots o, sh_dict o with
  | None, None, None, None, None, None, None, None => sh_namedtuple o
  | _, _, _, _, _, _, _, _ => None
  end.

(** The JSON value is a mapping. *)
Definition is_mapping (j : JSON) : bool :=
  match j with
  | JObject _ => true
  | _ => false
  end.

(** An instance of a [NamedTuple] class, which shows the serializer its
    fields in order, and its [str]. *)
Definition namedtuple (repr : string) (fields : list (string * PyVal))
    : PyVal :=
  PObject (mkShape None None None None None None None None (Some fields) repr).

(** ** Example programs *)

Definition example_clock : nat → datetime := fun n => 1000 + Z.of_nat n.
Definition example_uuids : nat → UUID := fun n => N.of_nat n.
Definition example_fresh : World := fresh_world example_clock example_uuids.

(** A root (at 0) and one child (at 1). *)
Definition example_pair : World :=
  run [ORunTree "root" "chain" None None no_kwargs;
       OCreateChild 0 "c0" "llm" no_kwargs] example_fresh.

(** A root (0), its child [c0] (1), and a grandchild [g] (2) that has
    ended: the counter of [c0] is 3, that of the root still 1. *)
Definition example_family : World :=
  run [ORunTree "root" "chain" None None no_kwargs;
       OCreateChild 0 "c0" "llm" no_kwargs;
       OCreateChild 1 "g" "tool" no_kwargs;
       OEnd 2 None None None] example_fresh.

(** The same, with two more grandchildren: [h] (3), ended, and [x] (4),
    still open.  The counter of [c0] is 4, that of [x] is 5. *)
Definition example_deep_calls : list Op :=
  [ORunTree "root" "chain" None None no_kwargs;
   OCreateChild 0 "c0" "llm" no_kwargs;
   OCreateChild 1 "g" "tool" no_kwargs;
   OEnd 2 None None None;
   OCreateChild 1 "h" "tool" no_kwargs;
   OEnd 3 None None None;
   OCreateChild 1 "x" "tool" no_kwargs].

Definition example_deep : World := run example_deep_calls example_fresh.


(** A function that raises, and one that returns. *)
Definition failing_func : PyFunc :=
  mkPyFunc "fails" false
    (fun _ _ => raise (mkExn (OtherException "ValueError") "bad input")).

Definition answering_func : PyFunc :=
  mkPyFunc "answers" true (fun _ _ => ret (VInt 42)).

(** The world in which [wrapper] calls [failing_func], decorated with
    [run_tree("chain")] and called without arguments in a new process. *)
Definition example_started : World :=
  match start_run "chain" None None ∅ failing_func [] None None None None
          None ∅ example_fresh with
  | Val _ w => w
  | _ => example_fresh
  end.

(** ** The announcements in flight *)

(** The work submitted to the executor that the module global names and
    not yet run. *)
Definition queued (w : World) : list Task :=
  match _THREAD_POOL_EXECUTOR w with
  | Some i =>
      match executors w !! i with
      | Some ex => pending ex
      | None => []
      end
  | None => []
  end.

(** Everything announced so far, in order: what has reached the client,
    then what waits in the queue. *)
Definition backlog (w : World) : list Task := transport w ++ queued w.

(** Every executor but the one that the module global names is shut down
    and holds no work. *)
Definition singleton_pool (w : World) : Prop :=
  ∀ i ex, executors w !! i = Some ex → _THREAD_POOL_EXECUTOR w ≠ Some i →
          shut_down ex = true ∧ pending ex = [].

Definition channel_ok (w : World) : Prop := pool_live w ∧ singleton_pool w.

(** [extends new w w']: from [w] to [w'] the announcements [new] were
    submitted, in this order, and nothing else happened to the channel but
    deliveries. *)
Definition extends (new : list Task) (w w' : World) : Prop :=
  channel_ok w'
  ∧ backlog w' = backlog w ++ new
  ∧ transport w `prefix_of` transport w'.
(** The announcement that a call submits, if any: [post] submits the
    fields of the run as they are when it is called, [patch] its [id],
    [outputs], [error] and links. *)
Definition announcement (op : Op) (w : World) : list Task :=
  match op with
  | OPost self x =>
      match heap w !! self with
      | Some r => [create_run r x]
      | None => []
      end
  | OPatch self =>
      match heap w !! self with
      | Some r =>
          [update_run (id r) (if truthy (outputs r) then outputs r else None)
             (error r) (parent_run_id r) (reference_example_id r)]
      | None => []
      end
  | _ => []
  end.

(** The announcements that a program submits, in the order of its calls. *)
Fixpoint announcements (ops : list Op) (w : World) : list Task :=
  match ops with
  | [] => []
  | op :: ops' => announcement op w ++ announcements ops' (after op w)
  end.

(** ** The forest of runs *)

(** The runs of the store whose [parent_run] is [p], oldest first. *)
Definition children_of (h : list RunTree) (p : addr) : list addr :=
  filter (λ a, parent_run <$> h !! a = Some (Some p)) (seq 0 (length h)).

(** [same_identity r r']: [r'] has the fields of [r] that no method of
    [RunTree] assigns to once the object is built, that is all of them but
    [child_runs], [child_execution_order], [end_time], [outputs] and
    [error]. *)
Record same_identity (r r' : RunTree) : Prop := {
  si_name : name r' = name r;
  si_id : id r' = id r;
  si_parent_run : parent_run r' = parent_run r;
  si_session_name : session_name r' = session_name r;
  si_session_id : session_id r' = session_id r;
  si_execution_order : execution_order r' = execution_order r;
  si_client : client r' = client r;
  si_start_time : start_time r' = start_time r;
  si_extra : extra r' = extra r;
  si_serialized : serialized r' = serialized r;
  si_inputs : inputs r' = inputs r;
  si_reference_example_id : reference_example_id r' = reference_example_id r;
  si_run_type : run_type r' = run_type r;
  si_parent_run_id : parent_run_id r' = parent_run_id r
}.

(** What one call does to the store, with the objects it builds: nothing
    (a call that only submits or drains, or that the store cannot serve),
    a new root, a new child recorded in its parent, [end] on a root, [end]
    on a child. *)
Inductive heap_step (h : list RunTree) : list RunTree → Prop :=
| step_none :
    heap_step h h
| step_root nm rt sn si kw u c st :
    heap_step h (h ++ [root_record nm rt sn si kw u c st])
| step_child self p nm rt kw u st et :
    h !! self = Some p →
    heap_step h
      (<[self := set_child_runs (child_runs p ++ [length h]) p]>
         (h ++ [child_record self p nm rt kw u st et]))
| step_end_root self r t o e :
    h !! self = Some r →
    parent_run r = None →
    heap_step h (<[self := ended t o e r]> h)
| step_end self p r pr t o e :
    h !! self = Some r →
    parent_run r = Some p →
    <[self := ended t o e r]> h !! p = Some pr →
    heap_step h
      (<[p := set_child_execution_order
                (Z.max (child_execution_order pr) (child_execution_order r))
                pr]>
         (<[self := ended t o e r]> h)).

(** The store of a process that builds its runs through the interface:
    parents are older than their children; every run has
    [1 ≤ execution_order ≤ child_execution_order]; a child comes after its
    parent and at most one step after its parent's counter, and it has its
    parent's session name and client and its parent's [id] as
    [parent_run_id]; among the children of one run the younger never has
    the smaller [execution_order]; and [child_runs] lists exactly the
    children, oldest first. *)
Record well_formed (h : list RunTree) : Prop := {
  wf_tree : tree_shaped h;
  wf_order : ∀ a r, h !! a = Some r →
    1 ≤ execution_order r ≤ child_execution_order r;
  wf_parent : ∀ c rc p rp,
    h !! c = Some rc → parent_run rc = Some p → h !! p = Some rp →
    execution_order rp < execution_order rc ≤ child_execution_order rp + 1
    ∧ session_name rc = session_name rp
    ∧ client rc = client rp
    ∧ parent_run_id rc = Some (id rp);
  wf_siblings : ∀ a b ra rb p,
    (a < b)%nat → h !! a = Some ra → h !! b = Some rb →
    parent_run ra = Some p → parent_run rb = Some p →
    execution_order ra ≤ execution_order rb;
  wf_children : ∀ p rp, h !! p = Some rp → child_runs rp = children_of h p
}.

(** ** [_testing.py]: the version of a test suite *)

(** The attribute of a [_LangSmithTestSuite] that [update_version] and
    [get_version] read and assign; [__init__] sets it to [None]. *)
Record LangSmithTestSuite : Type := mkLangSmithTestSuite {
  _version : option datetime
}.

(** [_LangSmithTestSuite.update_version], the body under the lock. *)
Definition update_version (version : datetime) (self : LangSmithTestSuite)
    : LangSmithTestSuite :=
  match _version self with
  | None => mkLangSmithTestSuite (Some version)
  | Some current =>
      if bool_decide (version > current) then
        mkLangSmithTestSuite (Some version)
      else self
  end.

(** [_LangSmithTestSuite.get_version]. *)
Definition get_version (self : LangSmithTestSuite) : option datetime :=
  _version self.

(** Calls of [update_version] one after the other.  Each call holds the
    lock of the class for its whole body, so the calls that several
    threads make happen in some such order. *)
Definition update_versions (versions : list datetime)
    (self : LangSmithTestSuite) : LangSmithTestSuite :=
  foldl (fun s v => update_version v s) self versions.

(** ** [_testing.py]: the inputs and outputs of an example *)

(** One turn of the loop of lines 477 and 478 of [_ensure_example],
    [outputs[k] = inputs.pop(k, None)], on the pair of [inputs] and
    [outputs]. *)
Definition pop_output (k : string) (io : Dict * Dict) : Dict * Dict :=
  (delete k io.1, <[k := default VNone (io.1 !! k)]> io.2).

(** Lines 475 to 478 of [_ensure_example]: [outputs] starts empty, and
    when [output_keys] is neither [None] nor empty every key in it is
    moved from [inputs] to [outputs].  Returns the two dictionaries as
    they are after the loop. *)
Definition split_outputs (output_keys : option (list string))
    (inputs : Dict) : Dict * Dict :=
  match output_keys with
  | None | Some [] => (inputs, ∅)
  | Some keys => foldl (fun io k => pop_output k io) (inputs, ∅) keys
  end.

(** ** [langsmith/__init__.py]: the attributes of the package *)

(** What the module-level [__getattr__] gives: the version string, or an
    object imported from a submodule, or an [AttributeError] that names
    the attribute asked for. *)
Inductive PackageAttr : Type :=
| Version (v : string)
| ImportedFrom (module_ attr : string)
| NoAttribute (name : string).

(** [__getattr__(name)].  [installed] is what [metadata.version] finds
    for the package: [None] when it raises [PackageNotFoundError]. *)
Definition __getattr__ (installed : option string) (name : string)
    : PackageAttr :=
  if bool_decide (name = "__version__") then Version (default "" installed)
  else if bool_decide (name = "Client") then
    ImportedFrom "langsmith.client" "Client"
  else if bool_decide (name = "RunTree") then
    ImportedFrom "langsmith.run_trees" "RunTree"
  else if bool_decide (name = "EvaluationResult") then
    ImportedFrom "langsmith.evaluation.evaluator" "EvaluationResult"
  else if bool_decide (name = "RunEvaluator") then
    ImportedFrom "langsmith.evaluation.evaluator" "RunEvaluator"
  else if bool_decide (name = "trace") then
    ImportedFrom "langsmith.run_helpers" "trace"
  else if bool_decide (name = "traceable") then
    ImportedFrom "langsmith.run_helpers" "traceable"
  else NoAttribute name.

(** [__all__]. *)
Definition __all__ : list string :=
  ["Client"; "RunTree"; "__version__"; "EvaluationResult"; "RunEvaluator";
   "traceable"; "trace"].

(** * Properties *)

(** ** Running the basic computations *)

Lemma heap_set_heap h w : heap (set_heap h w) = h.
Proof. done. Qed.
Lemma heap_set_executors l w : heap (set_executors l w) = heap w.
Proof. done. Qed.
Lemma heap_set_global g w : heap (set_global g w) = heap w.
Proof. done. Qed.
Lemma heap_set_transport t w : heap (set_transport t w) = heap w.
Proof. done. Qed.
Lemma heap_set_clock_reads n w : heap (set_clock_reads n w) = heap w.
Proof. done. Qed.
Lemma heap_set_uuid4_calls n w : heap (set_uuid4_calls n w) = heap w.
Proof. done. Qed.
Lemma heap_set_clients n w : heap (set_clients n w) = heap w.
Proof. done. Qed.
Lemma set_heap_set_heap h h' w : set_heap h (set_heap h' w) = set_heap h w.
Proof. done. Qed.

Create Rewrite HintDb world.
#[local] Hint Rewrite heap_set_heap heap_set_executors heap_set_global
  heap_set_transport heap_set_clock_reads heap_set_uuid4_calls
  heap_set_clients set_heap_set_heap : world.

Lemma bind_ret {A B} (a : A) (k : A → M B) (w : World) :
  bind (ret a) k w = k a w.
Proof. done. Qed.

Lemma bind_get {B} (a : addr) (k : RunTree → M B) (w : World) (r : RunTree) :
  heap w !! a = Some r → bind (get a) k w = k r w.
Proof. intros H. unfold bind, get. by rewrite H. Qed.

Lemma bind_modify {B} (a : addr) (f : RunTree → RunTree) (k : unit → M B)
    (w : World) (r : RunTree) :
  heap w !! a = Some r →
  bind (modify a f) k w = k tt (set_heap (<[a := f r]> (heap w)) w).
Proof. intros H. unfold bind, modify. by rewrite H. Qed.

Lemma modify_val (a : addr) (f : RunTree → RunTree) (w : World) (r : RunTree) :
  heap w !! a = Some r →
  modify a f w = Val tt (set_heap (<[a := f r]> (heap w)) w).
Proof. intros H. unfold modify. by rewrite H. Qed.

Lemma heap_tick_unless t w : heap (tick_unless t w) = heap w.
Proof. by destruct t. Qed.
#[local] Hint Rewrite heap_tick_unless : world.

Lemma bind_or_call_utcnow {B} (t : option datetime) (k : datetime → M B)
    (w : World) :
  bind (or_call t utcnow) k w =
  k (default (utcnow_at w (clock_reads w)) t) (tick_unless t w).
Proof. by destruct t. Qed.

Lemma heap_draw_unless u w : heap (draw_unless u w) = heap w.
Proof. by destruct u. Qed.
#[local] Hint Rewrite heap_draw_unless : world.

Lemma bind_or_call_uuid4 {B} (u : option UUID) (k : UUID → M B) (w : World) :
  bind (or_call u uuid4) k w =
  k (default (uuid4_at w (uuid4_calls w)) u) (draw_unless u w).
Proof. by destruct u. Qed.

(** Looking up an address that was just written. *)
Ltac solve_lookup :=
  autorewrite with world;
  first [ eassumption
        | apply list_lookup_insert_eq; rewrite ?length_insert;
          first [ assumption | lia ] ].

(** One statement of a straight-line method body. *)
Ltac py_step :=
  first [ rewrite bind_ret
        | erewrite bind_get by solve_lookup
        | erewrite bind_modify by solve_lookup
        | erewrite modify_val by solve_lookup ];
  autorewrite with world; rewrite ?list_insert_insert_eq.

Lemma ended_static t o e r :
  child_execution_order (ended t o e r) = child_execution_order r ∧
  execution_order (ended t o e r) = execution_order r ∧
  parent_run (ended t o e r) = parent_run r ∧
  end_time (ended t o e r) = Some t.
Proof. by destruct o, e. Qed.

Lemma end_unfold (w : World) (self : addr) (o : option Dict)
    (e : option string) (t : option datetime) (r : RunTree) :
  heap w !! self = Some r →
  let r1 := ended (default (utcnow_at w (clock_reads w)) t) o e r in
  let h1 := <[self := r1]> (heap w) in
  end_ self o e t w =
  match parent_run r with
  | None => Val tt (set_heap h1 (tick_unless t w))
  | Some p =>
      match h1 !! p with
      | Some pr =>
          Val tt
            (set_heap
               (<[p := set_child_execution_order
                         (Z.max (child_execution_order pr)
                            (child_execution_order r)) pr]> h1)
               (tick_unless t w))
      | None => Fault
      end
  end.
Proof.
  intros Hr r1 h1.
  assert (Hlt : (self < length (heap w))%nat) by by eapply lookup_lt_Some.
  destruct (ended_static (default (utcnow_at w (clock_reads w)) t) o e r)
    as (Hc & _ & Hp & _).
  fold r1 in Hc, Hp. subst h1. revert Hc Hp. subst r1. unfold ended, end_.
  rewrite bind_or_call_utcnow.
  set (t' := default _ t). intros Hc Hp.
  destruct o as [o|], e as [e|]; cbv zeta in *; repeat py_step;
    rewrite Hp; (destruct (parent_run r) as [p|]; [|done]);
    unfold bind at 1, get at 1; autorewrite with world;
    match goal with
    | |- context [<[?s := ?x]> ?h !! ?q] =>
        destruct (<[s := x]> h !! q) as [pr|] eqn:Hpr; [|done]
    end;
    repeat py_step; rewrite Hc; done.
Qed.

Lemma create_child_unfold (w : World) (self : addr) (nm rt : string)
    (kw : Kwargs) (p : RunTree) :
  heap w !! self = Some p →
  let w1 := draw_unless (kw_run_id kw) w in
  let w2 := tick_unless (kw_start_time kw) w1 in
  let w3 := tick_unless (kw_end_time kw) w2 in
  let c :=
    child_record self p nm rt kw
      (default (uuid4_at w (uuid4_calls w)) (kw_run_id kw))
      (default (utcnow_at w1 (clock_reads w1)) (kw_start_time kw))
      (default (utcnow_at w2 (clock_reads w2)) (kw_end_time kw)) in
  create_child self nm rt kw w =
  Val (length (heap w))
    (set_heap
       (<[self := set_child_runs (child_runs p ++ [length (heap w)]) p]>
          (heap w ++ [c])) w3).
Proof.
  intros Hp w1 w2 w3 c.
  assert (Hlt : (self < length (heap w))%nat) by by eapply lookup_lt_Some.
  unfold create_child. py_step.
  rewrite bind_or_call_uuid4. fold w1.
  rewrite bind_or_call_utcnow. fold w2.
  rewrite bind_or_call_utcnow. fold w3.
  unfold bind at 1, new_RunTree at 1.
  assert (Hh : heap w3 = heap w) by (subst w3 w2 w1; by autorewrite with world).
  rewrite Hh.
  erewrite bind_modify
    by (autorewrite with world; by apply lookup_app_l_Some).
  by autorewrite with world.
Qed.

(** ** Computations that leave the store alone *)

Lemma heap_const_ret {A} (a : A) : heap_const (ret a).
Proof. by intros w. Qed.

Lemma heap_const_raise {A} (e : Exn) : heap_const (@raise A e).
Proof. by intros w. Qed.

Lemma heap_const_bind {A B} (m : M A) (k : A → M B) :
  heap_const m → (∀ a, heap_const (k a)) → heap_const (bind m k).
Proof.
  intros Hm Hk w. unfold bind. specialize (Hm w).
  destruct (m w) as [a w'| |]; [|done..].
  specialize (Hk a w'). destruct (k a w'); [congruence..|done].
Qed.

Lemma heap_const_get a : heap_const (get a).
Proof. intros w. unfold get. by destruct (heap w !! a). Qed.

Lemma heap_const_read_global : heap_const read_global.
Proof. by intros w. Qed.

Lemma heap_const_write_global g : heap_const (write_global g).
Proof. by intros w. Qed.

Lemma heap_const_ThreadPoolExecutor n : heap_const (ThreadPoolExecutor n).
Proof. by intros w. Qed.

Lemma heap_const_submit ex t : heap_const (submit ex t).
Proof.
  intros w. destruct ex as [i|]; [|done]. simpl.
  destruct (executors w !! i) as [x|]; [|done]. by destruct (shut_down x).
Qed.

Lemma heap_const_shutdown i : heap_const (shutdown i).
Proof. intros w. unfold shutdown. by destruct (executors w !! i). Qed.

Lemma heap_const_worker_step i : heap_const (worker_step i).
Proof.
  intros w. unfold worker_step.
  destruct (executors w !! i) as [x|]; [|done]. by destruct (pending x).
Qed.

Lemma heap_const_ensure_thread_pool : heap_const _ensure_thread_pool.
Proof.
  unfold _ensure_thread_pool.
  apply heap_const_bind; [apply heap_const_read_global|]. intros g.
  apply heap_const_bind; [|intros; apply heap_const_read_global].
  destruct g; [apply heap_const_ret|].
  apply heap_const_bind; [apply heap_const_ThreadPoolExecutor|].
  intros; apply heap_const_write_global.
Qed.

Lemma heap_const_await_all_runs : heap_const await_all_runs.
Proof.
  unfold await_all_runs.
  apply heap_const_bind; [apply heap_const_read_global|]. intros [i|].
  - apply heap_const_bind; [apply heap_const_shutdown|].
    intros; apply heap_const_write_global.
  - apply heap_const_ret.
Qed.

Lemma heap_const_post self x : heap_const (post self x).
Proof.
  unfold post.
  apply heap_const_bind; [apply heap_const_ensure_thread_pool|]. intros ex.
  apply heap_const_bind; [apply heap_const_get|]. intros r.
  apply heap_const_submit.
Qed.

Lemma heap_const_patch self : heap_const (patch self).
Proof.
  unfold patch.
  apply heap_const_bind; [apply heap_const_ensure_thread_pool|]. intros ex.
  apply heap_const_bind; [apply heap_const_get|]. intros r.
  apply heap_const_submit.
Qed.

Lemma heap_const_forget {A} (m : M A) : heap_const m → heap_const (forget m).
Proof.
  intros H. apply heap_const_bind; [done|]. intros; apply heap_const_ret.
Qed.

Lemma heap_const_after (op : Op) (w : World) :
  heap_const (exec op) → heap (after op w) = heap w.
Proof.
  intros H. unfold after. specialize (H w). by destruct (exec op w).
Qed.

(** ** The store after one call *)

Lemma root_RunTree_unfold (w : World) (nm rt : string) (sn : option string)
    (si : option UUID) (kw : Kwargs) :
  let w1 := draw_unless (kw_run_id kw) w in
  let w2 := set_clients (S (clients w1)) w1 in
  let w3 := tick_unless (kw_start_time kw) w2 in
  root_RunTree nm rt sn si kw w =
  Val (length (heap w))
    (set_heap
       (heap w ++
        [root_record nm rt sn si kw
           (default (uuid4_at w (uuid4_calls w)) (kw_run_id kw)) (clients w1)
           (default (utcnow_at w2 (clock_reads w2)) (kw_start_time kw))])
       w3).
Proof.
  intros w1 w2 w3. unfold root_RunTree.
  rewrite bind_or_call_uuid4. fold w1.
  unfold bind at 1, LangChainPlusClient at 1. fold w2.
  rewrite bind_or_call_utcnow. fold w3.
  unfold new_RunTree.
  assert (Hh : heap w3 = heap w) by (subst w3 w2 w1; by autorewrite with world).
  by rewrite Hh.
Qed.

Lemma end_fault (w : World) (self : addr) o e t :
  heap w !! self = None → end_ self o e t w = Fault.
Proof.
  intros H. unfold end_. rewrite bind_or_call_utcnow.
  unfold bind at 1, modify at 1. autorewrite with world. by rewrite H.
Qed.

Lemma create_child_fault (w : World) (self : addr) nm rt kw :
  heap w !! self = None → create_child self nm rt kw w = Fault.
Proof. intros H. unfold create_child, bind, get. by rewrite H. Qed.

Lemma after_heap (op : Op) (w : World) : heap_change w op (heap (after op w)).
Proof.
  destruct op as [nm rt sn si kw|self nm rt kw|self o e t|self x|self| |i].
  - unfold after, exec, forget, bind. rewrite root_RunTree_unfold. simpl.
    apply change_root; [done|]. by exists nm, rt, sn, si, kw.
  - unfold after, exec, forget, bind.
    destruct (heap w !! self) as [p|] eqn:Hp.
    + rewrite (create_child_unfold _ _ _ _ _ p Hp). simpl.
      eapply change_child; [done..|]. eauto.
    + rewrite create_child_fault by done. constructor.
  - unfold after, exec.
    destruct (heap w !! self) as [r|] eqn:Hr.
    + rewrite (end_unfold _ _ _ _ _ r Hr). cbv zeta.
      destruct (parent_run r) as [p|] eqn:Hpar.
      * destruct (_ !! p) as [pr|] eqn:Hpr; [|constructor].
        autorewrite with world. by eapply change_end.
      * autorewrite with world. by eapply change_end_root.
    + rewrite end_fault by done. constructor.
  - rewrite heap_const_after; [constructor|].
    apply heap_const_forget, heap_const_post.
  - rewrite heap_const_after; [constructor|].
    apply heap_const_forget, heap_const_patch.
  - rewrite heap_const_after; [constructor|]. apply heap_const_await_all_runs.
  - rewrite heap_const_after; [constructor|]. apply heap_const_worker_step.
Qed.

Lemma evolves_refl w op m r : evolves w op m r r.
Proof. split; auto; lia. Qed.

Lemma set_child_runs_evolves w op m l r : evolves w op m r (set_child_runs l r).
Proof. split; simpl; auto; lia. Qed.

Lemma ended_evolves w self t o e o' e' t' r :
  evolves w (OEnd self o' e' t') self r (ended t o e r).
Proof.
  destruct (ended_static t o e r) as (Hc & He & Hp & _).
  split; auto; [by destruct o, e|right; eauto|lia].
Qed.

Lemma after_node (op : Op) (w : World) (m : addr) (r : RunTree) :
  heap w !! m = Some r →
  ∃ r', heap (after op w) !! m = Some r' ∧ evolves w op m r r'.
Proof.
  intros Hm.
  assert (Hlt : (m < length (heap w))%nat) by by eapply lookup_lt_Some.
  destruct (after_heap op w)
    as [|r0 _ _|self p c nm rt kw -> Hp _|self r1 o e t -> Hr Hpar
       |self p r1 pr o e t -> Hr Hpar Hpr].
  - exists r. split; [done|apply evolves_refl].
  - exists r. split; [by apply lookup_app_l_Some|apply evolves_refl].
  - rewrite list_lookup_insert, length_app. case_decide as Hd.
    + destruct Hd as [-> _]. rewrite Hp in Hm. injection Hm as ->.
      eexists; split; [done|apply set_child_runs_evolves].
    + exists r. split; [by apply lookup_app_l_Some|apply evolves_refl].
  - rewrite list_lookup_insert. case_decide as Hd.
    + destruct Hd as [-> _]. rewrite Hr in Hm. injection Hm as ->.
      eexists; split; [done|apply ended_evolves].
    + exists r. split; [done|apply evolves_refl].
  - set (r2 := ended _ o e r1) in *.
    assert (Hr2 : evolves w (OEnd self o e t) self r1 r2)
      by apply ended_evolves.
    rewrite list_lookup_insert, length_insert. case_decide as Hd.
    + destruct Hd as [-> _]. eexists; split; [done|].
      rewrite list_lookup_insert in Hpr. case_decide as Hd'.
      * destruct Hd' as [-> _]. injection Hpr as <-.
        rewrite Hr in Hm. injection Hm as ->.
        destruct Hr2 as [? ? ? ? ? ?].
        split; simpl; auto; [|lia].
        right. by rewrite Hr, Hpar, bool_decide_eq_true.
      * rewrite Hm in Hpr. injection Hpr as <-.
        split; simpl; auto; [|lia].
        right. by rewrite Hr, Hpar, bool_decide_eq_true.
    + rewrite list_lookup_insert. case_decide as Hd'.
      * destruct Hd' as [-> _]. rewrite Hr in Hm. injection Hm as ->.
        by eexists.
      * exists r. split; [done|apply evolves_refl].
Qed.

(** A run that a call adds to the store is at the first free address, and
    its parent, if it has one, was in the store before. *)
Lemma after_new (op : Op) (w : World) (m : addr) (r' : RunTree) :
  heap w !! m = None →
  heap (after op w) !! m = Some r' →
  m = length (heap w)
  ∧ match parent_run r' with
    | Some p => (p < length (heap w))%nat
    | None => True
    end.
Proof.
  intros Hm Hm'. apply lookup_ge_None in Hm.
  destruct (after_heap op w)
    as [|r0 Hr0 _|self p c nm rt kw -> Hp (u & st & et & ->)
       |self r1 o e t -> Hr Hpar|self p r1 pr o e t -> Hr Hpar Hpr].
  - apply lookup_lt_Some in Hm'. lia.
  - apply lookup_snoc_Some in Hm' as [[? _]|[-> <-]]; [lia|]. by rewrite Hr0.
  - apply lookup_lt_Some in Hp as Hlt.
    rewrite list_lookup_insert_ne in Hm' by lia.
    apply lookup_snoc_Some in Hm' as [[? _]|[-> <-]]; [lia|]. done.
  - apply lookup_lt_Some in Hm'. rewrite length_insert in Hm'. lia.
  - apply lookup_lt_Some in Hm'. rewrite !length_insert in Hm'. lia.
Qed.

Lemma after_length (op : Op) (w : World) :
  (length (heap w) ≤ length (heap (after op w)))%nat.
Proof.
  destruct (after_heap op w); rewrite ?length_insert, ?length_app; simpl; lia.
Qed.

(** ** Programs: what a sequence of calls preserves *)

Lemma run_cons op ops w : run (op :: ops) w = run ops (after op w).
Proof. done. Qed.

Lemma run_app ops1 ops2 w : run (ops1 ++ ops2) w = run ops2 (run ops1 w).
Proof. unfold run. by rewrite fold_left_app. Qed.

(** Every run keeps its address, its [execution_order], its parent and its
    [id]; its [child_execution_order] never decreases. *)
Lemma run_node (ops : list Op) (w : World) (m : addr) (r : RunTree) :
  heap w !! m = Some r →
  ∃ r', heap (run ops w) !! m = Some r'
        ∧ execution_order r' = execution_order r
        ∧ parent_run r' = parent_run r
        ∧ id r' = id r
        ∧ child_execution_order r ≤ child_execution_order r'.
Proof.
  revert w r. induction ops as [|op ops IH]; intros w r Hm.
  - exists r. repeat split; [done|lia].
  - destruct (after_node op w m r Hm) as (r1 & Hm1 & [He Hp Hi _ _ Hc]).
    destruct (IH _ _ Hm1) as (r2 & Hm2 & He2 & Hp2 & Hi2 & Hc2).
    exists r2. rewrite run_cons. repeat split; [done|congruence..|lia].
Qed.

Lemma run_end_time (ops : list Op) (w : World) (m : addr) (r : RunTree) :
  heap w !! m = Some r →
  no_end_on m ops = true →
  ∃ r', heap (run ops w) !! m = Some r' ∧ end_time r' = end_time r.
Proof.
  revert w r. induction ops as [|op ops IH]; intros w r Hm Hno.
  - by exists r.
  - simpl in Hno. apply andb_true_iff in Hno as [Hop Hno].
    destruct (after_node op w m r Hm) as (r1 & Hm1 & [_ _ _ Het _ _]).
    destruct (IH _ _ Hm1 Hno) as (r2 & Hm2 & He2).
    exists r2. rewrite run_cons. split; [done|].
    destruct Het as [Het|(o & e & t & ->)]; [congruence|].
    simpl in Hop. by rewrite bool_decide_eq_true_2 in Hop.
Qed.

Lemma run_child_execution_order (ops : list Op) (w : World) (p : addr)
    (r : RunTree) :
  heap w !! p = Some r →
  quiet_for p ops w = true →
  ∃ r', heap (run ops w) !! p = Some r'
        ∧ child_execution_order r' = child_execution_order r.
Proof.
  revert w r. induction ops as [|op ops IH]; intros w r Hm Hq.
  - by exists r.
  - simpl in Hq. apply andb_true_iff in Hq as [Hop Hq].
    destruct (after_node op w p r Hm) as (r1 & Hm1 & [_ _ _ _ Hc _]).
    destruct (IH _ _ Hm1 Hq) as (r2 & Hm2 & Hc2).
    exists r2. rewrite run_cons. split; [done|].
    destruct Hc as [Hc|Hc]; [congruence|].
    by rewrite Hc in Hop.
Qed.

(** ** The shape of the store *)

Lemma tree_shaped_after (op : Op) (w : World) :
  tree_shaped (heap w) → tree_shaped (heap (after op w)).
Proof.
  intros Hw a r' p Ha Hp.
  destruct (heap w !! a) as [r|] eqn:Hr.
  - destruct (after_node op w a r Hr) as (r1 & Hr1 & [_ Hpar _ _ _ _]).
    rewrite Ha in Hr1. injection Hr1 as <-.
    eapply Hw; [done|congruence].
  - destruct (after_new op w a r' Hr Ha) as [-> Hnew].
    by rewrite Hp in Hnew.
Qed.

Lemma tree_shaped_run (ops : list Op) (w : World) :
  tree_shaped (heap w) → tree_shaped (heap (run ops w)).
Proof.
  revert w. induction ops as [|op ops IH]; intros w Hw; [done|].
  rewrite run_cons. by apply IH, tree_shaped_after.
Qed.

Lemma reachable_tree_shaped (w : World) : reachable w → tree_shaped (heap w).
Proof.
  intros (clock & uuids & ops & ->). apply tree_shaped_run.
  by intros a r p Ha.
Qed.

Lemma tree_shaped_parent_live (h : list RunTree) (a p : addr) (r : RunTree) :
  tree_shaped h → h !! a = Some r → parent_run r = Some p →
  p ≠ a ∧ ∃ pr, h !! p = Some pr.
Proof.
  intros Hh Ha Hp. pose proof (Hh a r p Ha Hp) as Hlt.
  split; [lia|]. apply lookup_lt_is_Some_2.
  apply lookup_lt_Some in Ha. lia.
Qed.

(** ** [execution_order] *)

(** C1.  [create_child] on a parent [p] returns a new run whose
    [execution_order] is [p.child_execution_order + 1] (4 when the parent's
    counter is 3), and no later call of the interface changes it. *)
Theorem create_child_execution_order (w : World) (self : addr)
    (nm rt : string) (kw : Kwargs) (p : RunTree) :
  heap w !! self = Some p →
  ∃ (c : addr) (w' : World) (node : RunTree),
    create_child self nm rt kw w = Val c w'
    ∧ heap w !! c = None
    ∧ heap w' !! c = Some node
    ∧ execution_order node = child_execution_order p + 1
    ∧ (child_execution_order p = 3 → execution_order node = 4)
    ∧ ∀ ops : list Op,
        ∃ node', heap (run ops w') !! c = Some node'
                 ∧ execution_order node' = execution_order node.
Proof.
  intros Hp. pose proof (lookup_lt_Some _ _ _ Hp) as Hlt.
  rewrite (create_child_unfold w self nm rt kw p Hp). cbv zeta.
  set (c := child_record _ _ _ _ _ _ _ _).
  eexists _, _, c. split; [done|].
  assert (Hc : <[self:=set_child_runs (child_runs p ++ [length (heap w)]) p]>
                 (heap w ++ [c]) !! length (heap w) = Some c).
  { rewrite list_lookup_insert_ne by lia. by apply list_lookup_middle. }
  split; [by apply lookup_ge_None_2|].
  autorewrite with world. split; [done|]. split; [done|].
  split; [intros H3; simpl; lia|].
  intros ops.
  match goal with
  | |- context [run ops ?w'] =>
      destruct (run_node ops w' (length (heap w)) c) as (node' & Hn & He & _)
  end; [by autorewrite with world|].
  by exists node'.
Qed.

Lemma create_child_execution_order_witness :
  ∃ (c : addr) (w' : World) (node : RunTree),
    create_child 1 "c1" "llm" no_kwargs example_family = Val c w'
    ∧ heap w' !! c = Some node
    ∧ execution_order node = 4.
Proof.
  edestruct (create_child_execution_order example_family 1 "c1" "llm"
               no_kwargs) as (c & w' & node & H1 & _ & H3 & _ & H5 & _).
  - vm_compute. reflexivity.
  - exists c, w', node. split; [exact H1|]. split; [exact H3|].
    apply H5. reflexivity.
Defined.

(** ** [end] *)

Lemma ended_fields t o e r :
  outputs (ended t o e r) = match o with Some _ => o | None => outputs r end
  ∧ error (ended t o e r) = match e with Some _ => e | None => error r end.
Proof. by destruct o, e. Qed.

(** C2.  In a store where parents are older than their children, as in
    every store built through the interface ([reachable_tree_shaped]),
    [end] on a run [n] whose parent is [p] returns normally; [n] gets the
    [end_time] passed, or the current time when none is passed; its
    [outputs] and [error] change only when the argument is given; the
    counter of [p] becomes the larger of its own and that of [n] (5 for a
    parent at 4 and a child at 5); and the parent of [p], if any, is left
    exactly as it was. *)
Theorem end_updates_parent_only (w : World) (n p : addr) (node : RunTree)
    (o : option Dict) (e : option string) (t : option datetime) :
  tree_shaped (heap w) →
  heap w !! n = Some node →
  parent_run node = Some p →
  ∃ (w' : World) (node' pn pn' : RunTree),
    heap w !! p = Some pn
    ∧ end_ n o e t w = Val tt w'
    ∧ heap w' !! n = Some node'
    ∧ heap w' !! p = Some pn'
    ∧ end_time node' = Some (default (utcnow_at w (clock_reads w)) t)
    ∧ outputs node' = match o with Some _ => o | None => outputs node end
    ∧ error node' = match e with Some _ => e | None => error node end
    ∧ child_execution_order pn' =
        Z.max (child_execution_order pn) (child_execution_order node)
    ∧ (child_execution_order pn = 4 → child_execution_order node = 5 →
       child_execution_order pn' = 5)
    ∧ ∀ g : addr, parent_run pn = Some g →
        ∃ gn, heap w !! g = Some gn ∧ heap w' !! g = Some gn.
Proof.
  intros Hts Hn Hpar.
  destruct (tree_shaped_parent_live _ _ _ _ Hts Hn Hpar) as (Hne & pn & Hp).
  pose proof (lookup_lt_Some _ _ _ Hn) as Hltn.
  pose proof (lookup_lt_Some _ _ _ Hp) as Hltp.
  rewrite (end_unfold w n o e t node Hn). cbv zeta. rewrite Hpar.
  set (node' := ended _ o e node).
  rewrite list_lookup_insert_ne by done. rewrite Hp.
  destruct (ended_static (default (utcnow_at w (clock_reads w)) t) o e node)
    as (_ & _ & _ & Het).
  destruct (ended_fields (default (utcnow_at w (clock_reads w)) t) o e node)
    as (Ho & He).
  eexists _, node', pn, _. split; [done|]. split; [done|].
  autorewrite with world.
  split; [by rewrite list_lookup_insert_ne, list_lookup_insert_eq|].
  split; [by rewrite list_lookup_insert_eq by by rewrite length_insert|].
  split; [done|]. split; [done|]. split; [done|]. split; [done|].
  split; [simpl; lia|].
  intros g Hg.
  destruct (tree_shaped_parent_live _ _ _ _ Hts Hp Hg) as (Hgp & gn & Hgn).
  pose proof (Hts _ _ _ Hp Hg). pose proof (Hts _ _ _ Hn Hpar).
  exists gn. split; [done|].
  rewrite !list_lookup_insert_ne by lia. done.
Qed.

Lemma end_updates_parent_only_witness :
  ∃ (w' : World) (pn' gn' : RunTree),
    end_ 4 None None None example_deep = Val tt w'
    ∧ heap w' !! 1%nat = Some pn'
    ∧ child_execution_order pn' = 5
    ∧ heap w' !! 0%nat = Some gn'
    ∧ child_execution_order gn' = 1.
Proof.
  assert (Hx : ∃ node, heap example_deep !! 4%nat = Some node
                       ∧ parent_run node = Some 1%nat)
    by (eexists; split; [vm_compute; reflexivity|reflexivity]).
  destruct Hx as (node & Hn & Hpar).
  destruct (end_updates_parent_only example_deep 4 1 node None None None)
    as (w' & node' & pn & pn' & Hp & Hend & _ & Hp' & _ & _ & _ & Hmax & _
        & Hg).
  - apply reachable_tree_shaped.
    exists example_clock, example_uuids, example_deep_calls. reflexivity.
  - exact Hn.
  - exact Hpar.
  - vm_compute in Hp, Hn. injection Hp as <-. injection Hn as <-.
    destruct (Hg 0%nat eq_refl) as (gn & Hgn & Hgn').
    vm_compute in Hgn. injection Hgn as <-.
    eexists w', pn', _. split; [exact Hend|]. split; [exact Hp'|].
    split; [rewrite Hmax; reflexivity|]. split; [exact Hgn'|]. reflexivity.
Defined.

(** ** [end_time] *)

(** C3, as the spec states it, fails: the child that [create_child] returns
    already has an [end_time], although [end] was never called on it. *)
Lemma create_child_sets_end_time :
  ∃ (c : addr) (w' : World) (node : RunTree),
    create_child 0 "c0" "llm" no_kwargs
      (run [ORunTree "root" "chain" None None no_kwargs] example_fresh)
    = Val c w'
    ∧ heap w' !! c = Some node
    ∧ end_time node = Some 1002.
Proof. eexists _, _, _. vm_compute. repeat split. Qed.

(** C3, amended.  The run that [create_child] returns has an [end_time]
    from its creation: the [end_time] argument, or the current time when
    none is passed.  Once a run exists, no program that does not call [end]
    on it changes its [end_time]; one that is unset stays unset. *)
Theorem end_time_from_creation_or_end (w : World) (self : addr)
    (nm rt : string) (kw : Kwargs) (p : RunTree) :
  heap w !! self = Some p →
  ∃ (c : addr) (w' : World) (node : RunTree),
    create_child self nm rt kw w = Val c w'
    ∧ heap w' !! c = Some node
    ∧ end_time node =
        Some (default
                (utcnow_at w
                   (clock_reads w +
                    match kw_start_time kw with Some _ => 0 | None => 1 end)%nat)
                (kw_end_time kw))
    ∧ ∀ (w0 : World) (ops : list Op) (m : addr) (r : RunTree),
        heap w0 !! m = Some r →
        no_end_on m ops = true →
        ∃ r', heap (run ops w0) !! m = Some r' ∧ end_time r' = end_time r.
Proof.
  intros Hp. pose proof (lookup_lt_Some _ _ _ Hp) as Hlt.
  rewrite (create_child_unfold w self nm rt kw p Hp). cbv zeta.
  set (c := child_record _ _ _ _ _ _ _ _).
  eexists _, _, c. split; [done|]. autorewrite with world.
  split; [rewrite list_lookup_insert_ne by lia; by apply list_lookup_middle|].
  split.
  - subst c. simpl. f_equal.
    destruct (kw_run_id kw), (kw_start_time kw), (kw_end_time kw); simpl;
      try done; f_equal; lia.
  - intros w0 ops m r Hm Hno. by apply run_end_time.
Qed.

Lemma end_time_from_creation_or_end_witness :
  ∃ (c : addr) (w' : World) (node r' : RunTree),
    create_child 0 "c1" "llm" no_kwargs example_pair = Val c w'
    ∧ heap w' !! c = Some node
    ∧ end_time node = Some 1004
    ∧ heap (run [OPost 0 true; OEnd 1 None None None; OAwaitAllRuns]
              example_pair) !! 0%nat = Some r'
    ∧ end_time r' = None.
Proof.
  assert (Hx : ∃ p, heap example_pair !! 0%nat = Some p ∧ end_time p = None)
    by (eexists; split; [vm_compute; reflexivity|reflexivity]).
  destruct Hx as (p & Hp & Hnone).
  destruct (end_time_from_creation_or_end example_pair 0 "c1" "llm"
              no_kwargs p Hp) as (c & w' & node & H1 & H2 & H3 & H4).
  destruct (H4 example_pair
              [OPost 0 true; OEnd 1 None None None; OAwaitAllRuns] 0%nat p
              Hp eq_refl) as (r' & Hr' & Het).
  exists c, w', node, r'. split; [exact H1|]. split; [exact H2|].
  split; [rewrite H3; reflexivity|]. split; [exact Hr'|].
  rewrite Het. exact Hnone.
Defined.

(** ** The frame of [end] *)

Lemma set_child_execution_order_same (r : RunTree) :
  set_child_execution_order
    (Z.max (child_execution_order r) (child_execution_order r)) r = r.
Proof. destruct r. unfold set_child_execution_order. simpl. by rewrite Z.max_id. Qed.

(** C6, as the spec states it, fails: ending a child with only an error
    also changes another run, its parent, whose counter goes from 1 to 2. *)
Lemma end_error_changes_parent :
  ∃ w' : World,
    end_ 1 None (Some "boom") None example_pair = Val tt w'
    ∧ child_execution_order <$> heap example_pair !! 0%nat = Some 1
    ∧ child_execution_order <$> heap w' !! 0%nat = Some 2.
Proof. eexists. vm_compute. repeat split. Qed.

(** C6, amended.  [end(error=e)] on a run [n], with no [outputs] and no
    [end_time] passed, changes [n] in its [end_time] and [error] only, its
    [outputs] staying as they were; of the other runs it changes the parent
    of [n] alone, and of the parent only [child_execution_order], which
    becomes the larger of the two counters; the executors, the module
    global and the calls delivered are untouched. *)
Theorem end_error_only_frame (w : World) (n : addr) (node : RunTree)
    (e : string) :
  heap w !! n = Some node →
  (∀ p, parent_run node = Some p → is_Some (heap w !! p)) →
  ∃ (w' : World) (node' : RunTree),
    end_ n None (Some e) None w = Val tt w'
    ∧ heap w' !! n = Some node'
    ∧ outputs node' = outputs node
    ∧ node' = set_error (Some e)
                (set_end_time (Some (utcnow_at w (clock_reads w))) node)
    ∧ (∀ m, m ≠ n → parent_run node ≠ Some m → heap w' !! m = heap w !! m)
    ∧ (∀ p pn, parent_run node = Some p → p ≠ n → heap w !! p = Some pn →
         heap w' !! p =
         Some (set_child_execution_order
                 (Z.max (child_execution_order pn)
                    (child_execution_order node)) pn))
    ∧ executors w' = executors w
    ∧ _THREAD_POOL_EXECUTOR w' = _THREAD_POOL_EXECUTOR w
    ∧ transport w' = transport w.
Proof.
  intros Hn Hlive. pose proof (lookup_lt_Some _ _ _ Hn) as Hlt.
  rewrite (end_unfold w n None (Some e) None node Hn). cbv zeta.
  unfold ended. simpl default.
  set (node' := set_error (Some e) (set_end_time _ node)).
  destruct (parent_run node) as [p|] eqn:Hpar.
  - destruct (Hlive p eq_refl) as (pn & Hpn).
    destruct (decide (p = n)) as [->|Hne].
    + rewrite list_lookup_insert_eq by done.
      change (child_execution_order node) with (child_execution_order node').
      rewrite set_child_execution_order_same, list_insert_insert_eq.
      exists (set_heap (<[n:=node']> (heap w)) (tick_unless None w)), node'.
      autorewrite with world.
      split; [done|]. split; [by apply list_lookup_insert_eq|].
      split; [done|]. split; [done|].
      split; [intros m Hm _; by rewrite list_lookup_insert_ne|].
      split; [intros p pn0 [= <-] Hp; done|done].
    + rewrite list_lookup_insert_ne by done. rewrite Hpn.
      eexists _, node'. split; [done|]. autorewrite with world.
      split; [by rewrite list_lookup_insert_ne, list_lookup_insert_eq|].
      split; [done|]. split; [done|].
      split; [intros m Hm Hpm;
              rewrite !list_lookup_insert_ne by congruence; done|].
      split; [|done].
      intros p0 pn0 [= <-] _ Hp0. rewrite Hpn in Hp0. injection Hp0 as <-.
      rewrite list_lookup_insert_eq; [done|].
      rewrite length_insert. by eapply lookup_lt_Some.
  - exists (set_heap (<[n:=node']> (heap w)) (tick_unless None w)), node'.
    autorewrite with world.
    split; [done|]. split; [by apply list_lookup_insert_eq|].
    split; [done|]. split; [done|].
    split; [intros m Hm _; by rewrite list_lookup_insert_ne|].
    split; [intros p pn0 [=]|done].
Qed.

Lemma end_error_only_frame_witness :
  ∃ (w' : World) (node' : RunTree),
    end_ 1 None (Some "boom") None example_pair = Val tt w'
    ∧ heap w' !! 1%nat = Some node'
    ∧ outputs node' = Some ∅
    ∧ error node' = Some "boom".
Proof.
  assert (Hx : ∃ node, heap example_pair !! 1%nat = Some node
                       ∧ outputs node = Some ∅
                       ∧ parent_run node = Some 0%nat)
    by (eexists; split; [vm_compute; reflexivity|split; reflexivity]).
  destruct Hx as (node & Hn & Hout & Hpar).
  destruct (end_error_only_frame example_pair 1 node "boom" Hn)
    as (w' & node' & H1 & H2 & H3 & H4 & _).
  - intros p Hp. rewrite Hpar in Hp. injection Hp as <-.
    eexists. vm_compute. reflexivity.
  - exists w', node'. split; [exact H1|]. split; [exact H2|].
    split; [rewrite H3; exact Hout|]. rewrite H4. reflexivity.
Defined.

(** ** Siblings *)

(** C10, as stated, fails: between the creation of [c1] and of [c2] under
    the root, [end] is called on their elder sibling [c0], not on [c1], and
    the two get the [execution_order] 2 and 4. *)
Lemma siblings_differ_without_end_on_first :
  ∃ (c1 c2 : addr) (w1 w2 : World) (n1 n2 : RunTree),
    create_child 0 "c1" "llm" no_kwargs example_family = Val c1 w1
    ∧ no_end_on c1 [OEnd 1 None None None] = true
    ∧ create_child 0 "c2" "llm" no_kwargs (run [OEnd 1 None None None] w1)
      = Val c2 w2
    ∧ heap w2 !! c1 = Some n1
    ∧ heap w2 !! c2 = Some n2
    ∧ execution_order n1 = 2
    ∧ execution_order n2 = 4.
Proof. eexists _, _, _, _, _, _. vm_compute. repeat split. Qed.

(** C10, amended.  [create_child] reads the counter of the parent [p] and
    leaves it as it was.  Two children of [p] created one after the other,
    with any program [mid] in between, get the same [execution_order]
    whenever [mid] calls [end] on no child of [p], in particular when the
    two calls follow each other directly; they differ only if [mid] ends a
    child of [p]. *)
Theorem siblings_share_execution_order (w : World) (p : addr)
    (nm1 rt1 nm2 rt2 : string) (kw1 kw2 : Kwargs) (mid : list Op)
    (pn : RunTree) :
  heap w !! p = Some pn →
  ∃ (c1 c2 : addr) (w1 w2 : World) (pn1 n1 n2 : RunTree),
    create_child p nm1 rt1 kw1 w = Val c1 w1
    ∧ heap w1 !! p = Some pn1
    ∧ child_execution_order pn1 = child_execution_order pn
    ∧ create_child p nm2 rt2 kw2 (run mid w1) = Val c2 w2
    ∧ c1 ≠ c2
    ∧ heap w2 !! c1 = Some n1
    ∧ heap w2 !! c2 = Some n2
    ∧ (mid = [] → execution_order n2 = execution_order n1)
    ∧ (quiet_for p mid w1 = true → execution_order n2 = execution_order n1)
    ∧ (execution_order n2 ≠ execution_order n1 → quiet_for p mid w1 = false).
Proof.
  intros Hp. pose proof (lookup_lt_Some _ _ _ Hp) as Hlt.
  rewrite (create_child_unfold w p nm1 rt1 kw1 pn Hp). cbv zeta.
  set (c := child_record _ _ _ _ _ _ _ _).
  set (pn1 := set_child_runs _ pn).
  set (w1 := set_heap _ _).
  assert (Hp1 : heap w1 !! p = Some pn1).
  { subst w1. autorewrite with world.
    apply list_lookup_insert_eq. rewrite length_app. lia. }
  assert (Hc1 : heap w1 !! length (heap w) = Some c).
  { subst w1. autorewrite with world.
    rewrite list_lookup_insert_ne by lia. by apply list_lookup_middle. }
  destruct (run_node mid w1 p pn1 Hp1) as (pn2 & Hp2 & _).
  destruct (run_node mid w1 _ c Hc1) as (n1 & Hn1 & He1 & _).
  pose proof (lookup_lt_Some _ _ _ Hn1) as Hlt1.
  pose proof (lookup_lt_Some _ _ _ Hp2) as Hlt2.
  pose proof (create_child_unfold (run mid w1) p nm2 rt2 kw2 pn2 Hp2) as Hcc.
  cbv zeta in Hcc.
  set (c' := child_record _ pn2 _ _ _ _ _ _) in Hcc.
  exists (length (heap w)), (length (heap (run mid w1))), w1.
  eexists _, pn1, n1, c'.
  split; [done|]. split; [done|]. split; [done|]. split; [exact Hcc|].
  split; [lia|]. autorewrite with world.
  split; [rewrite list_lookup_insert_ne by lia; by apply lookup_app_l_Some|].
  split; [rewrite list_lookup_insert_ne by lia; by apply list_lookup_middle|].
  assert (Hq : quiet_for p mid w1 = true →
               execution_order c' = execution_order n1).
  { intros Hq.
    destruct (run_child_execution_order mid w1 p pn1 Hp1 Hq)
      as (pn2' & Hp2' & Hceo).
    rewrite Hp2 in Hp2'. injection Hp2' as <-.
    rewrite He1. simpl. rewrite Hceo. done. }
  split; [intros ->; by apply Hq|]. split; [done|].
  intros Hne. destruct (quiet_for p mid w1); [|done].
  by destruct Hne; apply Hq.
Qed.

Lemma siblings_share_execution_order_witness :
  ∃ (c1 c2 : addr) (w1 w2 : World) (n1 n2 : RunTree),
    create_child 0 "c1" "llm" no_kwargs example_pair = Val c1 w1
    ∧ create_child 0 "c2" "llm" no_kwargs w1 = Val c2 w2
    ∧ c1 ≠ c2
    ∧ heap w2 !! c1 = Some n1
    ∧ heap w2 !! c2 = Some n2
    ∧ execution_order n2 = execution_order n1.
Proof.
  assert (Hx : ∃ pn, heap example_pair !! 0%nat = Some pn)
    by (eexists; vm_compute; reflexivity).
  destruct Hx as (pn & Hp).
  destruct (siblings_share_execution_order example_pair 0 "c1" "llm" "c2"
              "llm" no_kwargs no_kwargs [] pn Hp)
    as (c1 & c2 & w1 & w2 & pn1 & n1 & n2 & H1 & _ & _ & H2 & H3 & H4 & H5
        & H6 & _).
  exists c1, c2, w1, w2, n1, n2.
  split; [exact H1|]. split; [exact H2|]. split; [exact H3|].
  split; [exact H4|]. split; [exact H5|]. exact (H6 eq_refl).
Defined.

(** ** The submission channel *)

(** An executor that was shut down refuses work: this is the error that
    clearing the global avoids. *)
Lemma submit_after_shutdown (w : World) (i : nat) (ex : Executor) (t : Task) :
  executors w !! i = Some ex →
  shut_down ex = true →
  ∃ msg, submit (Some i) t w = Exc (mkExn RuntimeError msg) w.
Proof. intros Hi Hs. simpl. rewrite Hi, Hs. eauto. Qed.

Lemma ensure_thread_pool_unset (w : World) :
  _THREAD_POOL_EXECUTOR w = None →
  _ensure_thread_pool w =
  Val (Some (length (executors w)))
    (set_global (Some (length (executors w)))
       (set_executors (executors w ++ [mkExecutor 1 [] 0 false]) w)).
Proof.
  intros Hg. unfold _ensure_thread_pool, bind, read_global. by rewrite Hg.
Qed.

Lemma ensure_thread_pool_set (w : World) (i : nat) :
  _THREAD_POOL_EXECUTOR w = Some i → _ensure_thread_pool w = Val (Some i) w.
Proof.
  intros Hg. unfold _ensure_thread_pool, bind, read_global.
  rewrite Hg. unfold ret. by rewrite Hg.
Qed.

Lemma await_all_runs_unfold (w : World) :
  pool_valid w →
  await_all_runs w =
  match _THREAD_POOL_EXECUTOR w with
  | Some i =>
      match executors w !! i with
      | Some ex =>
          Val tt
            (set_global None
               (set_transport (transport w ++ pending ex)
                  (set_executors
                     (<[i := mkExecutor (max_workers ex) [] (accepted ex)
                               true]> (executors w)) w)))
      | None => Fault
      end
  | None => Val tt w
  end.
Proof.
  intros Hv. unfold await_all_runs, bind, read_global, shutdown.
  destruct (_THREAD_POOL_EXECUTOR w) as [i|]; [|done].
  by destruct (executors w !! i).
Qed.

(** Submitting to a pool that has just been created. *)
Lemma submit_fresh_pool (w : World) (t : Task) :
  _THREAD_POOL_EXECUTOR w = None →
  (executor <- _ensure_thread_pool ;; submit executor t) w =
  Val (mkFuture (length (executors w)) 0)
    (set_executors (executors w ++ [mkExecutor 1 [t] 1 false])
       (set_global (Some (length (executors w))) w)).
Proof.
  intros Hg. unfold bind at 1. rewrite ensure_thread_pool_unset by done.
  unfold submit. cbn [executors set_global set_executors].
  rewrite list_lookup_middle by done.
  cbn [shut_down accepted pending max_workers app].
  rewrite insert_app_r_alt, Nat.sub_diag by done. done.
Qed.



(** ** Concurrent first use of the submission channel *)

Lemma sched_step_val (ts : list Pc) (i : nat) (w w' : World) (pc pc' : Pc) :
  ts !! i = Some pc →
  thread_step pc w = Val pc' w' →
  sched_step i (ts, w) = (<[i := pc']> ts, w').
Proof. intros Hi Hs. unfold sched_step. cbn [fst snd]. by rewrite Hi, Hs. Qed.

Lemma run_schedule_cons i sched cfg :
  run_schedule (i :: sched) cfg = run_schedule sched (sched_step i cfg).
Proof. done. Qed.

(** A thread that runs its three lines without interruption does what the
    sequential function does. *)
Lemma solo_call (ts : list Pc) (i : nat) (w : World) :
  ts !! i = Some AtTest →
  ∃ g w', _ensure_thread_pool w = Val g w'
          ∧ run_schedule [i; i; i] (ts, w) = (<[i := Returned g]> ts, w').
Proof.
  intros Hi. pose proof (lookup_lt_Some _ _ _ Hi) as Hlt.
  rewrite !run_schedule_cons.
  destruct (_THREAD_POOL_EXECUTOR w) as [g|] eqn:Hg.
  - rewrite (ensure_thread_pool_set w g Hg). eexists _, _. split; [done|].
    rewrite (sched_step_val ts i w w AtTest AtReturn Hi)
      by (unfold thread_step, bind, read_global, ret; by rewrite Hg).
    rewrite (sched_step_val _ i w w AtReturn (Returned (Some g)))
      by (first [by apply list_lookup_insert_eq
                |unfold thread_step, bind, read_global, ret; by rewrite Hg]).
    rewrite (sched_step_val _ i w w (Returned (Some g)) (Returned (Some g)))
      by (first [by apply list_lookup_insert_eq; rewrite length_insert|done]).
    by rewrite !list_insert_insert_eq.
  - rewrite (ensure_thread_pool_unset w Hg). eexists _, _. split; [done|].
    rewrite (sched_step_val ts i w w AtTest AtCreate Hi)
      by (unfold thread_step, bind, read_global, ret; by rewrite Hg).
    erewrite (sched_step_val _ i w _ AtCreate AtReturn)
      by (first [by apply list_lookup_insert_eq|done]).
    erewrite (sched_step_val _ i _ _ AtReturn (Returned _))
      by (first [by apply list_lookup_insert_eq; rewrite length_insert|done]).
    by rewrite !list_insert_insert_eq.
Qed.

Lemma run_schedule_app s1 s2 cfg :
  run_schedule (s1 ++ s2) cfg = run_schedule s2 (run_schedule s1 cfg).
Proof. unfold run_schedule. by rewrite fold_left_app. Qed.

Lemma one_by_one_S (j k : nat) :
  one_by_one j (S k) = [j; j; j] ++ one_by_one (S j) k.
Proof. done. Qed.

Lemma one_by_one_set (k j : nat) (before : list Pc) (w : World) (g : nat) :
  _THREAD_POOL_EXECUTOR w = Some g →
  length before = j →
  run_schedule (one_by_one j k) (before ++ replicate k AtTest, w) =
  (before ++ replicate k (Returned (Some g)), w).
Proof.
  revert j before. induction k as [|k IH]; intros j before Hg Hlen; [done|].
  rewrite one_by_one_S, run_schedule_app. cbn [replicate].
  destruct (solo_call (before ++ AtTest :: replicate k AtTest) j w)
    as (g' & w' & He & ->).
  { subst j. by apply list_lookup_middle. }
  rewrite (ensure_thread_pool_set w g Hg) in He. injection He as <- <-.
  subst j. rewrite <- (Nat.add_0_r (length before)) at 2.
  rewrite insert_app_r. cbn [insert list_insert].
  rewrite (cons_middle (Returned (Some g))), app_assoc.
  rewrite IH; [|done|rewrite length_app; simpl; lia].
  by rewrite <- app_assoc.
Qed.

(** C4, as the spec states it, fails: [_ensure_thread_pool] takes no lock,
    and two threads that both run the test of line 22 before either runs
    line 23 each create an executor. *)
Lemma concurrent_first_use_creates_two_workers :
  let cfg := run_schedule [0; 1; 0; 1; 0; 1]%nat ([AtTest; AtTest], example_fresh) in
  length (executors example_fresh) = 0%nat
  ∧ length (executors cfg.2) = 2%nat
  ∧ cfg.1 = [Returned (Some 1%nat); Returned (Some 1%nat)].
Proof. vm_compute. repeat split. Qed.

(** C4, amended.  The initialization is a test followed by an assignment,
    with no lock.  When the first calls do not overlap, each running its
    three lines before the next one starts, exactly one executor is
    created, however many threads call, and every call returns it. *)
Theorem sequential_first_use_creates_one_worker (w : World) (k : nat) :
  _THREAD_POOL_EXECUTOR w = None →
  let cfg := run_schedule (one_by_one 0 (S k)) (replicate (S k) AtTest, w) in
  length (executors cfg.2) = S (length (executors w))
  ∧ cfg.1 = replicate (S k) (Returned (Some (length (executors w))))
  ∧ _THREAD_POOL_EXECUTOR cfg.2 = Some (length (executors w)).
Proof.
  intros Hg cfg. subst cfg.
  rewrite one_by_one_S, run_schedule_app.
  destruct (solo_call (replicate (S k) AtTest) 0 w) as (g & w' & He & ->);
    [done|].
  rewrite (ensure_thread_pool_unset w Hg) in He. injection He as <- <-.
  cbn [replicate insert list_insert].
  rewrite (one_by_one_set k 1 [Returned (Some (length (executors w)))] _
             (length (executors w))) by done.
  cbn [fst snd]. split; [|done].
  cbn. rewrite length_app. simpl. lia.
Qed.

Lemma sequential_first_use_creates_one_worker_witness :
  let cfg := run_schedule (one_by_one 0 3) ([AtTest; AtTest; AtTest], example_fresh) in
  length (executors cfg.2) = 1%nat.
Proof.
  exact (proj1 (sequential_first_use_creates_one_worker example_fresh 2
                  eq_refl)).
Defined.

(** ** The executor named by the module global is never shut down *)

Lemma pool_live_same (w w' : World) :
  executors w' = executors w →
  _THREAD_POOL_EXECUTOR w' = _THREAD_POOL_EXECUTOR w →
  pool_live w → pool_live w'.
Proof. unfold pool_live. by intros -> ->. Qed.

Lemma keeps_pool_live_bind {A B} (m : M A) (k : A → M B) :
  keeps_pool_live m → (∀ a, keeps_pool_live (k a)) →
  keeps_pool_live (bind m k).
Proof.
  intros Hm Hk w Hw. unfold bind. specialize (Hm w Hw).
  destruct (m w) as [a w'| |]; [|done..]. by apply Hk.
Qed.

Lemma keeps_pool_live_ret {A} (a : A) : keeps_pool_live (ret a).
Proof. by intros w. Qed.

Lemma keeps_pool_live_get a : keeps_pool_live (get a).
Proof. intros w Hw. unfold get. by destruct (heap w !! a). Qed.

Lemma keeps_pool_live_ensure_thread_pool :
  keeps_pool_live _ensure_thread_pool.
Proof.
  intros w Hw. destruct (_THREAD_POOL_EXECUTOR w) as [i|] eqn:Hg.
  - by rewrite (ensure_thread_pool_set w i Hg).
  - rewrite (ensure_thread_pool_unset w Hg). unfold pool_live. cbn.
    eexists. split; [by apply list_lookup_middle|done].
Qed.

Lemma keeps_pool_live_submit ex t : keeps_pool_live (submit ex t).
Proof.
  intros w Hw. destruct ex as [i|]; [|done]. simpl.
  destruct (executors w !! i) as [x|] eqn:Hx; [|done].
  destruct (shut_down x) eqn:Hs; [done|].
  unfold pool_live in *. cbn.
  destruct (_THREAD_POOL_EXECUTOR w) as [g|]; [|done].
  destruct Hw as (y & Hy & Hys).
  destruct (decide (i = g)) as [->|Hne].
  - eexists. split; [apply list_lookup_insert_eq; by eapply lookup_lt_Some|].
    done.
  - exists y. by rewrite list_lookup_insert_ne.
Qed.

Lemma keeps_pool_live_worker_step i : keeps_pool_live (worker_step i).
Proof.
  intros w Hw. unfold worker_step.
  destruct (executors w !! i) as [x|] eqn:Hx; [|done].
  destruct (pending x) as [|t rest]; [done|].
  unfold pool_live in *. cbn.
  destruct (_THREAD_POOL_EXECUTOR w) as [g|]; [|done].
  destruct Hw as (y & Hy & Hys).
  destruct (decide (i = g)) as [->|Hne].
  - rewrite Hx in Hy. injection Hy as <-. eexists.
    split; [apply list_lookup_insert_eq; by eapply lookup_lt_Some|].
    exact Hys.
  - exists y. by rewrite list_lookup_insert_ne.
Qed.

Lemma keeps_pool_live_await_all_runs : keeps_pool_live await_all_runs.
Proof.
  intros w Hw. unfold await_all_runs, bind, read_global, shutdown.
  destruct (_THREAD_POOL_EXECUTOR w) as [i|] eqn:Hg; [|done].
  by destruct (executors w !! i).
Qed.

Lemma pool_live_after (op : Op) (w : World) :
  pool_live w → pool_live (after op w).
Proof.
  intros Hw. unfold after.
  assert (Hk : keeps_pool_live (exec op)).
  { destruct op as [nm rt sn si kw|self nm rt kw|self o e t|self x|self| |i];
      simpl.
    - intros w0 Hw0. unfold forget, bind. rewrite root_RunTree_unfold.
      revert Hw0. apply pool_live_same;
        by destruct (kw_run_id kw), (kw_start_time kw).
    - intros w0 Hw0. unfold forget, bind.
      destruct (heap w0 !! self) as [p|] eqn:Hp;
        [|by rewrite create_child_fault].
      rewrite (create_child_unfold w0 self nm rt kw p Hp).
      revert Hw0. apply pool_live_same;
        by destruct (kw_run_id kw), (kw_start_time kw), (kw_end_time kw).
    - intros w0 Hw0.
      destruct (heap w0 !! self) as [r|] eqn:Hr; [|by rewrite end_fault].
      rewrite (end_unfold w0 self o e t r Hr). cbv zeta.
      destruct (parent_run r) as [p|].
      + destruct (_ !! p); [|done].
        revert Hw0. apply pool_live_same; by destruct t.
      + revert Hw0. apply pool_live_same; by destruct t.
    - apply keeps_pool_live_bind; [|intros; apply keeps_pool_live_ret].
      apply keeps_pool_live_bind; [apply keeps_pool_live_ensure_thread_pool|].
      intros ex. apply keeps_pool_live_bind; [apply keeps_pool_live_get|].
      intros r. apply keeps_pool_live_submit.
    - apply keeps_pool_live_bind; [|intros; apply keeps_pool_live_ret].
      apply keeps_pool_live_bind; [apply keeps_pool_live_ensure_thread_pool|].
      intros ex. apply keeps_pool_live_bind; [apply keeps_pool_live_get|].
      intros r. apply keeps_pool_live_submit.
    - apply keeps_pool_live_await_all_runs.
    - apply keeps_pool_live_worker_step. }
  specialize (Hk w Hw). by destruct (exec op w).
Qed.

Lemma pool_live_run (ops : list Op) (w : World) :
  pool_live w → pool_live (run ops w).
Proof.
  revert w. induction ops as [|op ops IH]; intros w Hw; [done|].
  rewrite run_cons. by apply IH, pool_live_after.
Qed.

(** In a world built through the interface every run can be ended and
    patched: [end] and [patch] neither fault nor raise. *)
Lemma reachable_usable (w : World) (c : addr) (node : RunTree) :
  reachable w → heap w !! c = Some node → usable w c.
Proof.
  intros Hreach Hc. split.
  - exists node. split; [done|]. intros p Hp.
    apply reachable_tree_shaped in Hreach.
    destruct (tree_shaped_parent_live _ _ _ _ Hreach Hc Hp) as (_ & pr & Hpr).
    by exists pr.
  - destruct Hreach as (clock & uuids & ops & ->). by apply pool_live_run.
Qed.


(** ** The decorator *)

Lemma end_success (w : World) (n : addr) (node : RunTree) (o : option Dict)
    (e : option string) (t : option datetime) :
  heap w !! n = Some node →
  (∀ p, parent_run node = Some p → is_Some (heap w !! p)) →
  ∃ w' : World,
    end_ n o e t w = Val tt w'
    ∧ heap w' !! n =
        Some (ended (default (utcnow_at w (clock_reads w)) t) o e node)
    ∧ executors w' = executors w
    ∧ _THREAD_POOL_EXECUTOR w' = _THREAD_POOL_EXECUTOR w
    ∧ transport w' = transport w.
Proof.
  intros Hn Hlive. pose proof (lookup_lt_Some _ _ _ Hn) as Hlt.
  rewrite (end_unfold w n o e t node Hn). cbv zeta.
  set (node' := ended _ o e node).
  assert (Hc : child_execution_order node' = child_execution_order node)
    by apply ended_static.
  assert (Hw : ∀ h, executors (set_heap h (tick_unless t w)) = executors w
                    ∧ _THREAD_POOL_EXECUTOR (set_heap h (tick_unless t w))
                      = _THREAD_POOL_EXECUTOR w
                    ∧ transport (set_heap h (tick_unless t w)) = transport w)
    by (intros h; by destruct t).
  destruct (parent_run node) as [p|] eqn:Hpar.
  - destruct (Hlive p eq_refl) as (pn & Hpn).
    destruct (decide (p = n)) as [->|Hne].
    + rewrite list_lookup_insert_eq by done. rewrite <- Hc.
      rewrite set_child_execution_order_same, list_insert_insert_eq.
      eexists. split; [done|]. autorewrite with world.
      split; [by apply list_lookup_insert_eq|apply Hw].
    + rewrite list_lookup_insert_ne by done. rewrite Hpn.
      eexists. split; [done|]. autorewrite with world.
      split; [by rewrite list_lookup_insert_ne, list_lookup_insert_eq|].
      apply Hw.
  - eexists. split; [done|]. autorewrite with world.
    split; [by apply list_lookup_insert_eq|apply Hw].
Qed.

Lemma patch_success (w : World) (c : addr) (node : RunTree) :
  heap w !! c = Some node →
  pool_live w →
  ∃ (f : Future) (w' : World) (i : nat) (ex : Executor),
    patch c w = Val f w'
    ∧ heap w' = heap w
    ∧ _THREAD_POOL_EXECUTOR w' = Some i
    ∧ executors w' !! i = Some ex
    ∧ shut_down ex = false
    ∧ last (pending ex) =
        Some (update_run (id node)
                (if truthy (outputs node) then outputs node else None)
                (error node) (parent_run_id node)
                (reference_example_id node)).
Proof.
  intros Hc Hlive. unfold patch, pool_live in *.
  destruct (_THREAD_POOL_EXECUTOR w) as [i|] eqn:Hg.
  - destruct Hlive as (ex & Hex & Hs).
    unfold bind at 1. rewrite (ensure_thread_pool_set w i Hg).
    erewrite bind_get by exact Hc.
    unfold submit. rewrite Hex, Hs.
    eexists _, _, i, _. split; [done|]. split; [done|]. split; [done|].
    split; [cbn; apply list_lookup_insert_eq; by eapply lookup_lt_Some|].
    split; [done|]. cbn. by rewrite last_snoc.
  - unfold bind at 1. rewrite (ensure_thread_pool_unset w Hg).
    erewrite bind_get by (autorewrite with world; exact Hc).
    unfold submit. cbn [executors set_global set_executors].
    rewrite list_lookup_middle by done.
    cbn [shut_down accepted pending max_workers app].
    rewrite insert_app_r_alt, Nat.sub_diag by done.
    eexists _, _, _, _. split; [done|]. split; [done|]. split; [done|].
    split; [by apply list_lookup_middle|]. done.
Qed.

Lemma end_patch_then {A} (k : M A) (w : World) (c : addr) (o : option Dict)
    (e : option string) :
  usable w c →
  ∃ (w3 : World) (old node : RunTree) (i : nat) (ex : Executor),
    (end_ c o e None ;;; patch c ;;; k) w = k w3
    ∧ heap w !! c = Some old
    ∧ heap w3 !! c = Some node
    ∧ node = ended (utcnow_at w (clock_reads w)) o e old
    ∧ _THREAD_POOL_EXECUTOR w3 = Some i
    ∧ executors w3 !! i = Some ex
    ∧ last (pending ex) =
        Some (update_run (id node)
                (if truthy (outputs node) then outputs node else None)
                (error node) (parent_run_id node)
                (reference_example_id node)).
Proof.
  intros [(old & Hc & Hpar) Hlive].
  destruct (end_success w c old o e None Hc Hpar)
    as (w' & Hend & Hc' & Hex & Hg & _).
  simpl default in Hc'. set (node := ended _ o e old) in *.
  destruct (patch_success w' c node Hc') as (f & w3 & i & ex & Hp & Hh & Hg3
                                             & Hex3 & _ & Hlast).
  { unfold pool_live. by rewrite Hg, Hex. }
  exists w3, old, node, i, ex.
  split; [|by rewrite Hh].
  unfold bind at 1. rewrite Hend. unfold bind at 1. by rewrite Hp.
Qed.

(** C7.  Once [wrapper] has created and announced the run [c] and calls
    [func]: if [func] raises [e], [wrapper] raises the same [e], and when
    [e] is an [Exception] the run has by then been ended with [str(e)] as
    its error and a patch carrying that error has been submitted; if
    [func] returns [v], [wrapper] returns [v]. *)
Theorem wrapper_is_transparent (run_type : string) (name : option string)
    (serialized : option Dict) (extra_outer : Dict) (func : PyFunc)
    (args : list Value) (session_name : option string)
    (session_id example_id run_id : option UUID)
    (extra : option Dict) (kwargs kwargs' : Dict) (w w1 : World) (c : addr) :
  start_run run_type name serialized extra_outer func args session_name
    session_id example_id run_id extra kwargs w
  = Val (c, kwargs') w1 →
  match call_func func args c kwargs' w1 with
  | Val _ w2 | Exc _ w2 => usable w2 c
  | Fault => True
  end →
  match call_func func args c kwargs' w1 with
  | Exc e w2 =>
      ∃ w3 : World,
        wrapper run_type name serialized extra_outer func args session_name
          session_id example_id run_id extra kwargs w
        = Exc e w3
        ∧ if is_Exception e then
            ∃ (node : RunTree) (i : nat) (ex : Executor),
              heap w3 !! c = Some node
              ∧ error node = Some (exc_str e)
              ∧ is_Some (end_time node)
              ∧ _THREAD_POOL_EXECUTOR w3 = Some i
              ∧ executors w3 !! i = Some ex
              ∧ last (pending ex) =
                  Some (update_run (id node)
                          (if truthy (outputs node) then outputs node
                           else None)
                          (Some (exc_str e)) (parent_run_id node)
                          (reference_example_id node))
          else w3 = w2
  | Val v w2 =>
      ∃ (w3 : World) (node : RunTree),
        wrapper run_type name serialized extra_outer func args session_name
          session_id example_id run_id extra kwargs w
        = Val v w3
        ∧ heap w3 !! c = Some node
        ∧ outputs node = Some {[ "output" := v ]}
  | Fault =>
      wrapper run_type name serialized extra_outer func args session_name
        session_id example_id run_id extra kwargs w
      = Fault
  end.
Proof.
  intros Hstart Huse.
  assert (Hw :
    wrapper run_type name serialized extra_outer func args session_name
      session_id example_id run_id extra kwargs w =
    match call_func func args c kwargs' w1 with
    | Val v w2 =>
        (end_ c (Some {[ "output" := v ]}) None None ;;;
         patch c ;;; ret v) w2
    | Exc e w2 =>
        if is_Exception e then
          (end_ c None (Some (exc_str e)) None ;;; patch c ;;; raise e) w2
        else Exc e w2
    | Fault => Fault
    end).
  { unfold wrapper. unfold bind at 1. rewrite Hstart. cbn [fst snd].
    unfold bind at 1, try_except.
    destruct (call_func func args c kwargs' w1) as [v w2|e w2|]; [done| |done].
    destruct (is_Exception e); [|done]. unfold bind, raise.
    destruct (end_ c None (Some (exc_str e)) None w2) as [[] w'| |]; [|done..].
    by destruct (patch c w'). }
  rewrite Hw. clear Hw.
  destruct (call_func func args c kwargs' w1) as [v w2|e w2|]; [| |done].
  - destruct (end_patch_then (ret v) w2 c (Some {[ "output" := v ]}) None Huse)
      as (w3 & old & node & i & ex & Hrun & _ & Hc & -> & _).
    exists w3. eexists. split; [exact Hrun|]. split; [exact Hc|done].
  - destruct (is_Exception e) eqn:HE; [|by exists w2].
    destruct (end_patch_then (@raise Value e) w2 c None (Some (exc_str e))
                Huse)
      as (w3 & old & node & i & ex & Hrun & _ & Hc & -> & Hg & Hex & Hlast).
    exists w3. split; [exact Hrun|].
    eexists _, i, ex. split; [exact Hc|]. by repeat split; eauto.
Qed.

Lemma wrapper_is_transparent_witness :
  ∃ w3 : World,
    wrapper "chain" None None ∅ failing_func [] None None None None None ∅
      example_fresh
    = Exc (mkExn (OtherException "ValueError") "bad input") w3.
Proof.
  destruct (wrapper_is_transparent "chain" None None ∅ failing_func [] None
              None None None None ∅ ∅ example_fresh example_started 0%nat)
    as (w3 & Hw & _).
  - vm_compute. reflexivity.
  - split.
    + eexists. split; [vm_compute; reflexivity|].
      intros p Hp. vm_compute in Hp. discriminate Hp.
    + unfold pool_live. vm_compute. eexists. split; reflexivity.
  - exists w3. exact Hw.
Defined.

(** ** The [extra] of a decorated run *)

Lemma dict_or_empty_lookup (d : option Dict) (k : string) :
  dict_or d ∅ !! k = default ∅ d !! k.
Proof.
  destruct d as [m|]; [|done]. simpl. case_bool_decide as Hm; [|done].
  by rewrite Hm.
Qed.

Lemma extra_inner_lookup (deco call_ : option Dict) (k : string) :
  (if truthy call_ then dict_merge (dict_or deco ∅) (default ∅ call_)
   else dict_or deco ∅) !! k =
  match default ∅ call_ !! k with
  | Some v => Some v
  | None => default ∅ deco !! k
  end.
Proof.
  destruct call_ as [m|]; simpl.
  - case_bool_decide as Hm; simpl.
    + rewrite Hm, lookup_empty. apply dict_or_empty_lookup.
    + unfold dict_merge. destruct (m !! k) as [v|] eqn:Hk.
      * by apply lookup_union_Some_l.
      * rewrite lookup_union_r by done. apply dict_or_empty_lookup.
  - rewrite lookup_empty. apply dict_or_empty_lookup.
Qed.

(** C8.  The run that the decorated function creates, under a parent or
    as a root, has as [extra] the mapping in which a key has the value of
    the [extra] of the call when the call gives one, and otherwise that of
    the [extra] of the decorator. *)
Theorem decorated_run_extra (run_type : string) (name : option string)
    (serialized deco_extra : option Dict) (func : PyFunc)
    (args : list Value) (session_name : option string)
    (session_id example_id run_id : option UUID)
    (call_extra : option Dict) (kwargs kwargs' : Dict) (w w1 : World)
    (c : addr) :
  start_run run_type name serialized (dict_or deco_extra ∅) func args
    session_name session_id example_id run_id call_extra kwargs w
  = Val (c, kwargs') w1 →
  ∃ node : RunTree,
    heap w1 !! c = Some node
    ∧ ∀ k : string,
        extra node !! k =
        match default ∅ call_extra !! k with
        | Some v => Some v
        | None => default ∅ deco_extra !! k
        end.
Proof.
  unfold start_run. unfold bind at 1.
  set (extra_inner := if truthy call_extra then _ else _).
  assert (Hx : ∀ k, extra_inner !! k =
                    match default ∅ call_extra !! k with
                    | Some v => Some v
                    | None => default ∅ deco_extra !! k
                    end) by apply extra_inner_lookup.
  clearbody extra_inner.
  assert (Hpost : ∀ (a : addr) (d : Dict) (w' : World),
            (post (a, d).1 true ;;; ret (a, d)) w' = Val (c, kwargs') w1 →
            a = c ∧ heap w1 = heap w').
  { intros a d w' H. unfold bind, ret in H. cbn [fst] in H.
    pose proof (heap_const_post a true w') as Hc.
    destruct (post a true w') as [f w''| |]; [|done..].
    by injection H as -> _ ->. }
  destruct (kwargs !! "run") as [[| | | | | |r|]|]; try done.
  - unfold bind at 1.
    destruct (heap w !! r) as [p|] eqn:Hp;
      [|by rewrite create_child_fault].
    rewrite (create_child_unfold w r _ _ _ p Hp). cbv zeta.
    intros H. apply Hpost in H as [<- ->]. autorewrite with world.
    pose proof (lookup_lt_Some _ _ _ Hp).
    eexists. split.
    + rewrite list_lookup_insert_ne by lia. by apply list_lookup_middle.
    + intros k. simpl. rewrite <- Hx.
      apply (dict_or_empty_lookup (Some extra_inner)).
  - unfold bind at 1. rewrite root_RunTree_unfold. cbv zeta.
    intros H. apply Hpost in H as [<- ->]. autorewrite with world.
    eexists. split; [by apply list_lookup_middle|].
    intros k. simpl. by rewrite <- Hx.
Qed.

Lemma decorated_run_extra_witness :
  ∃ node : RunTree,
    heap (match start_run "chain" None None
                  (dict_or (Some {[ "a" := VInt 1; "b" := VInt 2 ]}) ∅)
                  answering_func [] None None None None
                  (Some {[ "b" := VInt 3 ]}) ∅ example_fresh with
          | Val _ w1 => w1
          | _ => example_fresh
          end) !! 0%nat = Some node
    ∧ extra node !! "a" = Some (VInt 1)
    ∧ extra node !! "b" = Some (VInt 3).
Proof.
  destruct (decorated_run_extra "chain" None None
              (Some {[ "a" := VInt 1; "b" := VInt 2 ]}) answering_func []
              None None None None (Some {[ "b" := VInt 3 ]}) ∅ ∅
              example_fresh
              (match start_run "chain" None None
                       (dict_or (Some {[ "a" := VInt 1; "b" := VInt 2 ]}) ∅)
                       answering_func [] None None None None
                       (Some {[ "b" := VInt 3 ]}) ∅ example_fresh with
               | Val _ w1 => w1
               | _ => example_fresh
               end) 0%nat) as (node & Hn & Hk).
  - vm_compute. reflexivity.
  - exists node. split; [exact Hn|].
    split; [rewrite (Hk "a")|rewrite (Hk "b")]; vm_compute; reflexivity.
Defined.

(** ** The decorator on examples *)

(** A decorated function that returns 42 does so through the wrapper, and
    its run ends with that output. *)
Lemma wrapper_returns_result :
  ∃ (w3 : World) (node : RunTree),
    run_tree "chain" None None None answering_func [] None None None None
      None ∅ example_fresh
    = Val (VInt 42) w3
    ∧ heap w3 !! 0%nat = Some node
    ∧ outputs node = Some {[ "output" := VInt 42 ]}
    ∧ error node = None.
Proof. eexists _, _. vm_compute. repeat split. Qed.

(** An exception that is not an [Exception] goes through the wrapper
    without being recorded. *)
Lemma wrapper_lets_interrupt_through :
  ∃ (w3 : World) (node : RunTree),
    run_tree "chain" None None None
      (mkPyFunc "interrupted" false
         (fun _ _ => raise (mkExn (NonException "KeyboardInterrupt") "")))
      [] None None None None None ∅ example_fresh
    = Exc (mkExn (NonException "KeyboardInterrupt") "") w3
    ∧ heap w3 !! 0%nat = Some node
    ∧ error node = None
    ∧ end_time node = None.
Proof. eexists _, _. vm_compute. repeat split. Qed.

(** A [run] that is not a [RunTree] is refused before [func] is called. *)
Lemma wrapper_refuses_other_run :
  ∃ w3 : World,
    run_tree "chain" None None None answering_func [] None None None None
      None {[ "run" := VStr "not a run" ]} example_fresh
    = Exc (mkExn TypeError "run must be a RunTree") w3
    ∧ heap w3 = [].
Proof. eexists. vm_compute. repeat split. Qed.

(** ** The serializer *)

(** C9.  A value whose shape is that of a named tuple serializes to the
    sequence of its serialized field values, in the order of the fields;
    the result is not a mapping and the field names do not occur in it. *)
Theorem namedtuple_serializes_to_sequence (o : Shape PyVal)
    (fields : list (string * PyVal)) :
  named_tuple_like o = Some fields →
  serialize (PObject o) = JList (map (fun kv => serialize kv.2) fields)
  ∧ is_mapping (serialize (PObject o)) = false.
Proof.
  unfold named_tuple_like. intros H. simpl.
  destruct (sh_datetime o); [done|]. destruct (sh_enum o); [done|].
  destruct (sh_uuid o); [done|]. destruct (sh_export o); [done|].
  destruct (sh_fields o); [done|]. destruct (sh_tagged o); [done|].
  destruct (sh_slots o); [done|]. destruct (sh_dict o); [done|].
  by rewrite H.
Qed.

Lemma namedtuple_serializes_to_sequence_witness :
  serialize (namedtuple "MyNamedTuple(foo='a', bar=1)"
               [("foo", PStr "a"); ("bar", PNum 1)])
  = JList [JStr "a"; JNum 1].
Proof.
  exact (proj1 (namedtuple_serializes_to_sequence
                  (mkShape None None None None None None None None
                     (Some [("foo", PStr "a"); ("bar", PNum 1)])
                     "MyNamedTuple(foo='a', bar=1)")
                  [("foo", PStr "a"); ("bar", PNum 1)] eq_refl)).
Defined.

(** ** The order of the announcements *)

Lemma extends_same (w w' : World) :
  executors w' = executors w →
  _THREAD_POOL_EXECUTOR w' = _THREAD_POOL_EXECUTOR w →
  transport w' = transport w →
  channel_ok w → extends [] w w'.
Proof.
  intros He Hg Ht [Hl Hs]. split; [|split].
  - split; [by eapply pool_live_same|].
    intros i ex. rewrite He, Hg. apply Hs.
  - unfold backlog, queued. by rewrite He, Hg, Ht, app_nil_r.
  - by rewrite Ht.
Qed.

Lemma extends_trans (n1 n2 : list Task) (w1 w2 w3 : World) :
  extends n1 w1 w2 → extends n2 w2 w3 → extends (n1 ++ n2) w1 w3.
Proof.
  intros (_ & Hb1 & Hp1) (Hok & Hb2 & Hp2). split; [done|]. split.
  - by rewrite Hb2, Hb1, app_assoc.
  - by etrans.
Qed.

Lemma ensure_thread_pool_channel (w : World) :
  channel_ok w →
  ∃ (i : nat) (ex : Executor) (w' : World),
    _ensure_thread_pool w = Val (Some i) w'
    ∧ _THREAD_POOL_EXECUTOR w' = Some i
    ∧ executors w' !! i = Some ex
    ∧ shut_down ex = false
    ∧ heap w' = heap w
    ∧ transport w' = transport w
    ∧ extends [] w w'.
Proof.
  intros Hok. destruct (_THREAD_POOL_EXECUTOR w) as [i|] eqn:Hg.
  - rewrite (ensure_thread_pool_set w i Hg).
    destruct Hok as [Hl Hs]. pose proof Hl as Hl'. unfold pool_live in Hl'.
    rewrite Hg in Hl'. destruct Hl' as (ex & Hex & Hshut).
    exists i, ex, w. do 6 (split; [done|]). by apply extends_same.
  - rewrite (ensure_thread_pool_unset w Hg).
    eexists _, _, _. split; [done|]. split; [done|].
    split; [by apply list_lookup_middle|]. split; [done|].
    split; [done|]. split; [done|].
    destruct Hok as [Hl Hs]. split; [split|split].
    + unfold pool_live. cbn. eexists.
      split; [by apply list_lookup_middle|done].
    + intros i ex Hi Hne. cbn in Hi, Hne.
      apply lookup_app_Some in Hi as [Hi|[Hlen Hi]].
      * apply (Hs i ex Hi). by rewrite Hg.
      * destruct (i - length (executors w))%nat eqn:Hd; [|done].
        destruct Hne. f_equal. lia.
    + unfold backlog, queued. cbn. rewrite Hg.
      rewrite list_lookup_middle by done. cbn. by rewrite !app_nil_r.
    + done.
Qed.

Lemma submit_channel (w : World) (i : nat) (ex : Executor) (t : Task) :
  channel_ok w →
  _THREAD_POOL_EXECUTOR w = Some i →
  executors w !! i = Some ex →
  shut_down ex = false →
  ∃ (f : Future) (w' : World),
    submit (Some i) t w = Val f w'
    ∧ heap w' = heap w
    ∧ transport w' = transport w
    ∧ extends [t] w w'.
Proof.
  intros [Hl Hs] Hg Hex Hshut. simpl. rewrite Hex, Hshut.
  pose proof (lookup_lt_Some _ _ _ Hex) as Hlt.
  eexists _, _. split; [done|]. split; [done|]. split; [done|].
  split; [split|split].
  - unfold pool_live. cbn. rewrite Hg. eexists.
    split; [by apply list_lookup_insert_eq|done].
  - intros j ex' Hj Hne. cbn in Hj, Hne. rewrite Hg in Hne.
    rewrite list_lookup_insert_ne in Hj by congruence.
    apply (Hs j ex' Hj). by rewrite Hg.
  - unfold backlog, queued. cbn. rewrite Hg, Hex.
    rewrite list_lookup_insert_eq by done. cbn. by rewrite app_assoc.
  - done.
Qed.

Lemma worker_step_channel (w : World) (j : nat) :
  channel_ok w →
  match worker_step j w with
  | Val _ w' => heap w' = heap w ∧ extends [] w w'
  | Exc _ _ => False
  | Fault => True
  end.
Proof.
  intros Hok. unfold worker_step.
  destruct (executors w !! j) as [ex|] eqn:Hex; [|done].
  destruct (pending ex) as [|t rest] eqn:Hpend.
  { split; [done|]. by apply extends_same. }
  split; [done|]. destruct Hok as [Hl Hs].
  pose proof (lookup_lt_Some _ _ _ Hex) as Hlt.
  destruct (decide (_THREAD_POOL_EXECUTOR w = Some j)) as [Hg|Hg].
  - pose proof Hl as Hl'. unfold pool_live in Hl'. rewrite Hg in Hl'.
    destruct Hl' as (ex' & Hex' & Hshut).
    rewrite Hex in Hex'. injection Hex' as <-.
    split; [split|split].
    + unfold pool_live. cbn. rewrite Hg. eexists.
      split; [by apply list_lookup_insert_eq|done].
    + intros i ex' Hi Hne. cbn in Hi, Hne. rewrite Hg in Hne.
      rewrite list_lookup_insert_ne in Hi by congruence.
      apply (Hs i ex' Hi). by rewrite Hg.
    + unfold backlog, queued. cbn. rewrite Hg, Hex, Hpend.
      rewrite list_lookup_insert_eq by done. cbn.
      by rewrite app_nil_r, <- app_assoc.
    + cbn. by apply prefix_app_r.
  - destruct (Hs j ex Hex Hg) as [_ Hnil]. by rewrite Hnil in Hpend.
Qed.

Lemma await_all_runs_channel (w : World) :
  channel_ok w →
  ∃ w' : World,
    await_all_runs w = Val tt w'
    ∧ heap w' = heap w
    ∧ transport w' = backlog w
    ∧ (∀ i ex, executors w' !! i = Some ex →
               pending ex = [] ∧ shut_down ex = true)
    ∧ extends [] w w'.
Proof.
  intros [Hl Hs].
  assert (Hv : pool_valid w).
  { unfold pool_valid, pool_live in *.
    destruct (_THREAD_POOL_EXECUTOR w); [|done].
    destruct Hl as (ex & -> & _). by eexists. }
  rewrite (await_all_runs_unfold w Hv).
  destruct (_THREAD_POOL_EXECUTOR w) as [i|] eqn:Hg.
  - pose proof Hl as Hl'. unfold pool_live in Hl'. rewrite Hg in Hl'.
    destruct Hl' as (ex & Hex & Hshut). rewrite Hex.
    pose proof (lookup_lt_Some _ _ _ Hex) as Hlt.
    assert (Hall : ∀ j ex',
      <[i:=mkExecutor (max_workers ex) [] (accepted ex) true]> (executors w)
        !! j = Some ex' → pending ex' = [] ∧ shut_down ex' = true).
    { intros j ex' Hj. destruct (decide (i = j)) as [<-|Hne].
      - rewrite list_lookup_insert_eq in Hj by done. by injection Hj as <-.
      - rewrite list_lookup_insert_ne in Hj by done.
        destruct (Hs j ex' Hj) as [? ?]; [by rewrite Hg; congruence|done]. }
    eexists. split; [done|]. split; [done|].
    split; [cbn; unfold backlog, queued; by rewrite Hg, Hex|].
    split; [exact Hall|]. split; [split|split].
    + done.
    + intros j ex' Hj _. cbn in Hj. by destruct (Hall j ex' Hj).
    + unfold backlog at 1. unfold queued. cbn.
      unfold backlog, queued. by rewrite Hg, Hex, !app_nil_r.
    + cbn. by apply prefix_app_r.
  - exists w. split; [done|]. split; [done|].
    split; [unfold backlog, queued; by rewrite Hg, app_nil_r|].
    split; [|by apply extends_same].
    intros i ex Hi. destruct (Hs i ex Hi) as [? ?]; [by rewrite Hg|done].
Qed.
Lemma post_channel (w : World) (self : addr) (r : RunTree) (x : bool) :
  channel_ok w →
  heap w !! self = Some r →
  ∃ (f : Future) (w' : World),
    post self x w = Val f w'
    ∧ heap w' = heap w
    ∧ transport w' = transport w
    ∧ extends [create_run r x] w w'.
Proof.
  intros Hok Hr.
  destruct (ensure_thread_pool_channel w Hok)
    as (i & ex & w1 & He & Hg & Hex & Hshut & Hh & Ht & Hext).
  destruct (submit_channel w1 i ex (create_run r x)) as (f & w' & Hs & Hh' & Ht' & Hext');
    [apply Hext|done..|].
  exists f, w'. unfold post. unfold bind at 1. rewrite He.
  erewrite bind_get by (rewrite Hh; exact Hr).
  split; [done|]. split; [congruence|]. split; [congruence|].
  apply (extends_trans [] _ w w1 w'); done.
Qed.

Lemma patch_channel (w : World) (self : addr) (r : RunTree) :
  channel_ok w →
  heap w !! self = Some r →
  ∃ (f : Future) (w' : World),
    patch self w = Val f w'
    ∧ heap w' = heap w
    ∧ transport w' = transport w
    ∧ extends
        [update_run (id r) (if truthy (outputs r) then outputs r else None)
           (error r) (parent_run_id r) (reference_example_id r)] w w'.
Proof.
  intros Hok Hr.
  destruct (ensure_thread_pool_channel w Hok)
    as (i & ex & w1 & He & Hg & Hex & Hshut & Hh & Ht & Hext).
  destruct (submit_channel w1 i ex
              (update_run (id r)
                 (if truthy (outputs r) then outputs r else None)
                 (error r) (parent_run_id r) (reference_example_id r)))
    as (f & w' & Hs & Hh' & Ht' & Hext'); [apply Hext|done..|].
  exists f, w'. unfold patch. unfold bind at 1. rewrite He.
  erewrite bind_get by (rewrite Hh; exact Hr).
  split; [done|]. split; [congruence|]. split; [congruence|].
  apply (extends_trans [] _ w w1 w'); done.
Qed.

(** The calls on the store leave the channel alone. *)
Lemma store_call_channel (op : Op) (w : World) :
  match op with
  | ORunTree _ _ _ _ _ | OCreateChild _ _ _ _ | OEnd _ _ _ _ => True
  | _ => False
  end →
  executors (after op w) = executors w
  ∧ _THREAD_POOL_EXECUTOR (after op w) = _THREAD_POOL_EXECUTOR w
  ∧ transport (after op w) = transport w.
Proof.
  destruct op as [nm rt sn si kw|self nm rt kw|self o e t| | | |];
    try done; intros _; unfold after, exec.
  - unfold forget, bind. rewrite root_RunTree_unfold.
    by destruct (kw_run_id kw), (kw_start_time kw).
  - unfold forget, bind.
    destruct (heap w !! self) as [p|] eqn:Hp;
      [|by rewrite create_child_fault].
    rewrite (create_child_unfold w self nm rt kw p Hp).
    by destruct (kw_run_id kw), (kw_start_time kw), (kw_end_time kw).
  - destruct (heap w !! self) as [r|] eqn:Hr; [|by rewrite end_fault].
    rewrite (end_unfold w self o e t r Hr). cbv zeta.
    destruct (parent_run r) as [p|].
    + destruct (_ !! p); [|done]. by destruct t.
    + by destruct t.
Qed.

Lemma after_channel (op : Op) (w : World) :
  channel_ok w → extends (announcement op w) w (after op w).
Proof.
  intros Hok.
  destruct op as [nm rt sn si kw|self nm rt kw|self o e t|self x|self| |i].
  - destruct (store_call_channel (ORunTree nm rt sn si kw) w I)
      as (He & Hg & Ht). by apply extends_same.
  - destruct (store_call_channel (OCreateChild self nm rt kw) w I)
      as (He & Hg & Ht). by apply extends_same.
  - destruct (store_call_channel (OEnd self o e t) w I) as (He & Hg & Ht).
    by apply extends_same.
  - simpl. destruct (heap w !! self) as [r|] eqn:Hr.
    + destruct (post_channel w self r x Hok Hr) as (f & w' & Hp & _ & _ & Hx).
      unfold after, exec, forget, bind. by rewrite Hp.
    + unfold after, exec, forget, post, bind.
      destruct (ensure_thread_pool_channel w Hok)
        as (g & ex & w1 & He & _ & _ & _ & Hc & _).
      rewrite He. unfold get. rewrite Hc, Hr. by apply extends_same.
  - simpl. destruct (heap w !! self) as [r|] eqn:Hr.
    + destruct (patch_channel w self r Hok Hr) as (f & w' & Hp & _ & _ & Hx).
      unfold after, exec, forget, bind. by rewrite Hp.
    + unfold after, exec, forget, patch, bind.
      destruct (ensure_thread_pool_channel w Hok)
        as (g & ex & w1 & He & _ & _ & _ & Hc & _).
      rewrite He. unfold get. rewrite Hc, Hr. by apply extends_same.
  - destruct (await_all_runs_channel w Hok) as (w' & Ha & _ & _ & _ & Hx).
    unfold after, exec. by rewrite Ha.
  - pose proof (worker_step_channel w i Hok) as Hw.
    unfold after, exec. destruct (worker_step i w) as [[] w'| |];
      [apply Hw|done|by apply extends_same].
Qed.

Lemma run_channel (ops : list Op) (w : World) :
  channel_ok w → extends (announcements ops w) w (run ops w).
Proof.
  revert w. induction ops as [|op ops IH]; intros w Hok.
  - by apply extends_same.
  - rewrite run_cons. simpl.
    pose proof (after_channel op w Hok) as H1.
    eapply extends_trans; [exact H1|]. apply IH, H1.
Qed.

Lemma fresh_world_channel_ok clock uuids : channel_ok (fresh_world clock uuids).
Proof. split; [done|]. by intros i ex Hi. Qed.

Lemma reachable_channel_ok (w : World) : reachable w → channel_ok w.
Proof.
  intros (clock & uuids & ops & ->).
  apply (run_channel ops _ (fresh_world_channel_ok clock uuids)).
Qed.

Lemma reachable_run (ops : list Op) (w : World) :
  reachable w → reachable (run ops w).
Proof.
  intros (clock & uuids & ops0 & ->). exists clock, uuids, (ops0 ++ ops).
  by rewrite run_app.
Qed.

Lemma reachable_fresh clock uuids : reachable (fresh_world clock uuids).
Proof. by exists clock, uuids, []. Qed.

Lemma run_snoc (op : Op) (ops : list Op) (w : World) :
  run (ops ++ [op]) w = after op (run ops w).
Proof. by rewrite run_app. Qed.







(** What [post] announces is the run as it is when [post] is called: an
    [end] between the call and the delivery does not change what the
    client receives. *)
Theorem post_sends_the_run_as_posted (w : World) (self : addr) (r : RunTree)
    (x : bool) (o : option Dict) (e : option string) (t : option datetime) :
  reachable w →
  heap w !! self = Some r →
  transport (run [OPost self x; OEnd self o e t; OAwaitAllRuns] w)
  = backlog w ++ [create_run r x].
Proof.
  intros Hreach Hr. pose proof (reachable_channel_ok w Hreach) as Hok.
  change [OPost self x; OEnd self o e t; OAwaitAllRuns]
    with ([OPost self x; OEnd self o e t] ++ [OAwaitAllRuns]).
  rewrite run_snoc.
  destruct (run_channel [OPost self x; OEnd self o e t] w Hok)
    as (Hok' & Hb & _).
  cbn [announcements announcement] in Hb. rewrite Hr, app_nil_r in Hb.
  cbn [app] in Hb.
  destruct (await_all_runs_channel _ Hok') as (w' & Ha & _ & Ht & _).
  unfold after at 1, exec at 1. rewrite Ha. by rewrite Ht, Hb.
Qed.

Lemma post_sends_the_run_as_posted_witness :
  ∃ r : RunTree,
    transport (run [OPost 1 true; OEnd 1 None (Some "boom") None;
                    OAwaitAllRuns] example_pair)
    = [create_run r true]
    ∧ error r = None.
Proof.
  assert (Hx : ∃ r, heap example_pair !! 1%nat = Some r ∧ error r = None)
    by (eexists; split; [vm_compute; reflexivity|reflexivity]).
  destruct Hx as (r & Hr & He). exists r. split; [|exact He].
  apply (post_sends_the_run_as_posted example_pair 1 r true None
           (Some "boom") None); [|exact Hr].
  apply reachable_run, reachable_fresh.
Defined.



(** ** The forest of runs *)

Lemma after_heap_step (op : Op) (w : World) :
  heap_step (heap w) (heap (after op w)).
Proof.
  destruct op as [nm rt sn si kw|self nm rt kw|self o e t|self x|self| |i].
  - unfold after, exec, forget, bind. rewrite root_RunTree_unfold. simpl.
    apply step_root.
  - unfold after, exec, forget, bind.
    destruct (heap w !! self) as [p|] eqn:Hp.
    + rewrite (create_child_unfold _ _ _ _ _ p Hp). simpl.
      by apply step_child.
    + rewrite create_child_fault by done. constructor.
  - unfold after, exec.
    destruct (heap w !! self) as [r|] eqn:Hr.
    + rewrite (end_unfold _ _ _ _ _ r Hr). cbv zeta.
      destruct (parent_run r) as [p|] eqn:Hpar.
      * destruct (_ !! p) as [pr|] eqn:Hpr; [|constructor].
        autorewrite with world. by eapply step_end.
      * autorewrite with world. by eapply step_end_root.
    + rewrite end_fault by done. constructor.
  - rewrite heap_const_after; [constructor|].
    apply heap_const_forget, heap_const_post.
  - rewrite heap_const_after; [constructor|].
    apply heap_const_forget, heap_const_patch.
  - rewrite heap_const_after; [constructor|]. apply heap_const_await_all_runs.
  - rewrite heap_const_after; [constructor|]. apply heap_const_worker_step.
Qed.

Lemma same_identity_refl r : same_identity r r.
Proof. by split. Qed.

Lemma same_identity_trans r1 r2 r3 :
  same_identity r1 r2 → same_identity r2 r3 → same_identity r1 r3.
Proof. intros [] []. split; congruence. Qed.

Lemma ended_identity t o e r : same_identity r (ended t o e r).
Proof. by destruct o, e. Qed.

Lemma ended_children t o e r :
  child_runs (ended t o e r) = child_runs r
  ∧ child_execution_order (ended t o e r) = child_execution_order r.
Proof. by destruct o, e. Qed.

Lemma filter_ext_in {A} (P1 P2 : A → Prop) `{!∀ x, Decision (P1 x)}
    `{!∀ x, Decision (P2 x)} (l : list A) :
  (∀ x, x ∈ l → P1 x ↔ P2 x) → filter P1 l = filter P2 l.
Proof.
  induction l as [|a l IH]; intros Hext; [done|].
  rewrite !filter_cons.
  rewrite IH by (intros x Hx; apply Hext; by right).
  assert (Ha : P1 a ↔ P2 a) by (apply Hext; by left).
  destruct (decide (P1 a)), (decide (P2 a)); tauto || done.
Qed.

Lemma children_of_same (h h' : list RunTree) (p : addr) :
  length h' = length h →
  (∀ a, parent_run <$> h' !! a = parent_run <$> h !! a) →
  children_of h' p = children_of h p.
Proof.
  intros Hlen Hsame. unfold children_of. rewrite Hlen.
  apply list_filter_iff. intros a. by rewrite Hsame.
Qed.

Lemma children_of_grow (h h' : list RunTree) (c : RunTree) (p : addr) :
  length h' = S (length h) →
  (∀ a, (a < length h)%nat → parent_run <$> h' !! a = parent_run <$> h !! a) →
  h' !! length h = Some c →
  children_of h' p =
  children_of h p ++ (if decide (parent_run c = Some p) then [length h] else []).
Proof.
  intros Hlen Hold Hnew. unfold children_of.
  rewrite Hlen, seq_S, filter_app. f_equal.
  - apply filter_ext_in. intros a Ha. apply elem_of_seq in Ha.
    rewrite Hold by lia. done.
  - simpl. rewrite filter_cons, filter_nil, Hnew. simpl.
    destruct (decide (parent_run c = Some p)) as [->|Hne];
      case_decide as Hd; try done.
    by injection Hd.
Qed.

Lemma children_of_none (h : list RunTree) (p : addr) :
  tree_shaped h → (length h ≤ p)%nat → children_of h p = [].
Proof.
  intros Ht Hp. unfold children_of.
  assert (Hall : Forall (λ a, ¬ (parent_run <$> h !! a = Some (Some p)))
                   (seq 0 (length h))).
  { apply Forall_forall. intros a Ha Hpar. apply elem_of_seq in Ha.
    destruct (h !! a) as [r|] eqn:Hr; [|done]. injection Hpar as Hpar.
    pose proof (Ht a r p Hr Hpar). lia. }
  induction Hall as [|a l Ha _ IH]; [done|].
  by rewrite filter_cons_False.
Qed.
(** A store whose runs keep their fixed fields and their children, and
    whose counters do not go down, stays well formed. *)
Lemma well_formed_update (h h' : list RunTree) :
  length h' = length h →
  (∀ a r, h !! a = Some r →
     ∃ r', h' !! a = Some r' ∧ same_identity r r'
           ∧ child_runs r' = child_runs r
           ∧ child_execution_order r ≤ child_execution_order r') →
  well_formed h → well_formed h'.
Proof.
  intros Hlen Hold [Ht Ho Hp Hs Hc].
  assert (Hinv : ∀ a r', h' !! a = Some r' →
            ∃ r, h !! a = Some r ∧ same_identity r r'
                 ∧ child_runs r' = child_runs r
                 ∧ child_execution_order r ≤ child_execution_order r').
  { intros a r' Ha. pose proof (lookup_lt_Some _ _ _ Ha) as Hlt.
    rewrite Hlen in Hlt. apply lookup_lt_is_Some_2 in Hlt as [r Hr].
    destruct (Hold a r Hr) as (r'' & Ha' & ?). exists r.
    rewrite Ha in Ha'. injection Ha' as <-. done. }
  split.
  - intros a r' p Ha Hpar.
    destruct (Hinv a r' Ha) as (r & Hr & [] & _).
    eapply Ht; [done|congruence].
  - intros a r' Ha.
    destruct (Hinv a r' Ha) as (r & Hr & [] & _ & Hge).
    specialize (Ho a r Hr). lia.
  - intros c rc' p rp' Hc' Hpar Hp'.
    destruct (Hinv c rc' Hc') as (rc & Hrc & [] & _ & _).
    destruct (Hinv p rp' Hp') as (rp & Hrp & [] & _ & Hge).
    destruct (Hp c rc p rp Hrc ltac:(congruence) Hrp) as (? & ? & ? & ?).
    repeat split; try congruence; lia.
  - intros a b ra' rb' p Hab Ha Hb Hpa Hpb.
    destruct (Hinv a ra' Ha) as (ra & Hra & [] & _ & _).
    destruct (Hinv b rb' Hb) as (rb & Hrb & [] & _ & _).
    pose proof (Hs a b ra rb p Hab Hra Hrb ltac:(congruence) ltac:(congruence)).
    lia.
  - intros p rp' Hp'.
    destruct (Hinv p rp' Hp') as (rp & Hrp & _ & Hch & _).
    rewrite Hch, (Hc p rp Hrp). symmetry. apply children_of_same; [done|].
    intros a. destruct (h !! a) as [r|] eqn:Hr.
    + destruct (Hold a r Hr) as (r' & -> & [] & _). simpl. congruence.
    + apply lookup_ge_None in Hr. rewrite <- Hlen in Hr.
      apply lookup_ge_None in Hr. by rewrite Hr.
Qed.

Lemma well_formed_insert (h : list RunTree) (a : addr) (r r' : RunTree) :
  h !! a = Some r →
  same_identity r r' →
  child_runs r' = child_runs r →
  child_execution_order r ≤ child_execution_order r' →
  well_formed h → well_formed (<[a := r']> h).
Proof.
  intros Ha Hid Hch Hge. apply well_formed_update; [apply length_insert|].
  intros b rb Hb. destruct (decide (a = b)) as [<-|Hne].
  - exists r'. rewrite list_lookup_insert_eq by by eapply lookup_lt_Some.
    rewrite Ha in Hb. injection Hb as <-. done.
  - exists rb. rewrite list_lookup_insert_ne by done.
    split; [done|]. split; [apply same_identity_refl|]. split; [done|lia].
Qed.

(** A store that gets one new run, recorded in its parent if it has one,
    stays well formed. *)
Lemma well_formed_grow (h h' : list RunTree) (c : RunTree) :
  length h' = S (length h) →
  (∀ a r, h !! a = Some r →
     ∃ r', h' !! a = Some r' ∧ same_identity r r'
           ∧ child_runs r' =
               child_runs r
               ++ (if decide (parent_run c = Some a) then [length h] else [])
           ∧ child_execution_order r ≤ child_execution_order r') →
  h' !! length h = Some c →
  child_runs c = [] →
  1 ≤ execution_order c ≤ child_execution_order c →
  (∀ q, parent_run c = Some q →
     ∃ rq, h !! q = Some rq
           ∧ execution_order c = child_execution_order rq + 1
           ∧ session_name c = session_name rq
           ∧ client c = client rq
           ∧ parent_run_id c = Some (id rq)) →
  well_formed h → well_formed h'.
Proof.
  intros Hlen Hold Hnew Hcr Hco Hcp [Ht Ho Hp Hs Hc].
  assert (Hinv : ∀ a r', h' !! a = Some r' →
            ((a < length h)%nat
             ∧ ∃ r, h !! a = Some r ∧ same_identity r r'
                    ∧ child_runs r' =
                        child_runs r
                        ++ (if decide (parent_run c = Some a)
                            then [length h] else [])
                    ∧ child_execution_order r ≤ child_execution_order r')
            ∨ (a = length h ∧ r' = c)).
  { intros a r' Ha. pose proof (lookup_lt_Some _ _ _ Ha) as Hlt.
    rewrite Hlen in Hlt. destruct (decide (a = length h)) as [->|Hne].
    - right. rewrite Hnew in Ha. by injection Ha as <-.
    - left. assert (Hlt' : (a < length h)%nat) by lia. split; [done|].
      apply lookup_lt_is_Some_2 in Hlt' as [r Hr].
      destruct (Hold a r Hr) as (r'' & Ha' & ?). exists r.
      rewrite Ha in Ha'. injection Ha' as <-. done. }
  assert (Ht' : tree_shaped h').
  { intros a r' p Ha Hpar.
    destruct (Hinv a r' Ha) as [(_ & r & Hr & [] & _)|[-> ->]].
    - eapply Ht; [done|congruence].
    - destruct (Hcp p Hpar) as (rq & Hq & _). by eapply lookup_lt_Some. }
  split; [done|..].
  - intros a r' Ha.
    destruct (Hinv a r' Ha) as [(_ & r & Hr & [] & _ & Hge)|[-> ->]]; [|done].
    specialize (Ho a r Hr). lia.
  - intros a ra' p rp' Ha Hpar Hp'.
    pose proof (Ht' a ra' p Ha Hpar) as Hlt.
    destruct (Hinv p rp' Hp') as [(_ & rp & Hrp & [] & _ & Hge)|[-> ->]].
    2: { apply lookup_lt_Some in Ha. lia. }
    destruct (Hinv a ra' Ha) as [(_ & ra & Hra & [] & _ & _)|[-> ->]].
    + destruct (Hp a ra p rp Hra ltac:(congruence) Hrp) as (? & ? & ? & ?).
      repeat split; try congruence; lia.
    + destruct (Hcp p Hpar) as (rq & Hq & Heo & Hsn & Hcl & Hid).
      rewrite Hrp in Hq. injection Hq as <-.
      specialize (Ho p rp Hrp).
      repeat split; try congruence; lia.
  - intros a b ra' rb' p Hab Ha Hb Hpa Hpb.
    destruct (Hinv a ra' Ha) as [(Hlta & ra & Hra & [] & _ & _)|[-> ->]].
    2: { apply lookup_lt_Some in Hb. lia. }
    destruct (Hinv b rb' Hb) as [(_ & rb & Hrb & [] & _ & _)|[-> ->]].
    + pose proof (Hs a b ra rb p Hab Hra Hrb ltac:(congruence)
                    ltac:(congruence)). lia.
    + destruct (Hcp p Hpb) as (rq & Hq & Heo & _).
      destruct (Hp a ra p rq Hra ltac:(congruence) Hq) as (? & _). lia.
  - intros p rp' Hp'.
    rewrite (children_of_grow h h' c p Hlen); [| |done].
    2: { intros a Ha. apply lookup_lt_is_Some_2 in Ha as [r Hr].
         destruct (Hold a r Hr) as (r' & -> & [] & _). rewrite Hr. simpl.
         congruence. }
    destruct (Hinv p rp' Hp') as [(_ & rp & Hrp & _ & Hch & _)|[-> ->]].
    + by rewrite Hch, (Hc p rp Hrp).
    + rewrite Hcr, children_of_none by done.
      case_decide as Hd; [|done].
      destruct (Hcp _ Hd) as (rq & Hq & _). apply lookup_lt_Some in Hq. lia.
Qed.

Lemma well_formed_step (h h' : list RunTree) :
  heap_step h h' → well_formed h → well_formed h'.
Proof.
  intros [|nm rt sn si kw u c st|self p nm rt kw u st et Hself
          |self r t o e Hr Hpar|self p r pr t o e Hr Hpar Hpr] Hwf.
  - done.
  - eapply (well_formed_grow h _ (root_record nm rt sn si kw u c st));
      [by rewrite length_app; simpl; lia| |by apply list_lookup_middle
      |done|done|done|done].
    intros a r Ha. exists r. split; [by apply lookup_app_l_Some|].
    split; [apply same_identity_refl|]. simpl. rewrite app_nil_r.
    split; [done|lia].
  - pose proof (lookup_lt_Some _ _ _ Hself) as Hlt.
    eapply (well_formed_grow h _ (child_record self p nm rt kw u st et));
      [by rewrite length_insert, length_app; simpl; lia| | |done| |  |done].
    + intros a r Ha. destruct (decide (self = a)) as [<-|Hne].
      * rewrite Hself in Ha. injection Ha as <-.
        eexists. rewrite list_lookup_insert_eq
          by (rewrite length_app; simpl; lia).
        split; [done|]. split; [by split|]. simpl.
        rewrite decide_True by done. split; [done|lia].
      * exists r. rewrite list_lookup_insert_ne by done.
        split; [by apply lookup_app_l_Some|].
        split; [apply same_identity_refl|]. simpl.
        rewrite decide_False by congruence. rewrite app_nil_r.
        split; [done|lia].
    + rewrite list_lookup_insert_ne by lia. by apply list_lookup_middle.
    + simpl. pose proof (wf_order h Hwf self p Hself). lia.
    + simpl. intros q [= <-]. by exists p.
  - destruct (ended_children t o e r) as [Hch Hce].
    eapply well_formed_insert; [done|apply ended_identity|done|lia|done].
  - destruct (ended_children t o e r) as [Hch Hce].
    eapply well_formed_insert; [done|by split|done|simpl; lia|].
    eapply well_formed_insert; [done|apply ended_identity|done|lia|done].
Qed.

Lemma well_formed_run (ops : list Op) (w : World) :
  well_formed (heap w) → well_formed (heap (run ops w)).
Proof.
  revert w. induction ops as [|op ops IH]; intros w Hw; [done|].
  rewrite run_cons. apply IH.
  eapply well_formed_step; [apply after_heap_step|done].
Qed.

Lemma reachable_well_formed (w : World) : reachable w → well_formed (heap w).
Proof.
  intros (clock & uuids & ops & ->). apply well_formed_run.
  split; simpl; intros; by rewrite ?lookup_nil in *.
Qed.

(** One call, and so every program, leaves the fixed fields of the runs
    that exist alone. *)
Lemma heap_step_identity (h h' : list RunTree) (m : addr) (r : RunTree) :
  heap_step h h' → h !! m = Some r →
  ∃ r', h' !! m = Some r' ∧ same_identity r r'.
Proof.
  intros [|nm rt sn si kw u c st|self p nm rt kw u st et Hself
          |self r0 t o e Hr Hpar|self p r0 pr t o e Hr Hpar Hpr] Hm.
  - exists r. split; [done|apply same_identity_refl].
  - exists r. split; [by apply lookup_app_l_Some|apply same_identity_refl].
  - destruct (decide (self = m)) as [<-|Hne].
    + rewrite Hself in Hm. injection Hm as <-.
      eexists. rewrite list_lookup_insert_eq
        by (rewrite length_app; apply lookup_lt_Some in Hself; lia).
      split; [done|by split].
    + exists r. rewrite list_lookup_insert_ne by done.
      split; [by apply lookup_app_l_Some|apply same_identity_refl].
  - destruct (decide (self = m)) as [<-|Hne].
    + rewrite Hr in Hm. injection Hm as <-.
      eexists. rewrite list_lookup_insert_eq by by eapply lookup_lt_Some.
      split; [done|apply ended_identity].
    + exists r. rewrite list_lookup_insert_ne by done.
      split; [done|apply same_identity_refl].
  - assert (Hm1 : ∃ r1, <[self := ended t o e r0]> h !! m = Some r1
                        ∧ same_identity r r1).
    { destruct (decide (self = m)) as [<-|Hne].
      - rewrite Hr in Hm. injection Hm as <-.
        eexists. rewrite list_lookup_insert_eq by by eapply lookup_lt_Some.
        split; [done|apply ended_identity].
      - exists r. rewrite list_lookup_insert_ne by done.
        split; [done|apply same_identity_refl]. }
    destruct Hm1 as (r1 & Hm1 & Hid).
    destruct (decide (p = m)) as [<-|Hne].
    + rewrite Hpr in Hm1. injection Hm1 as <-.
      eexists. rewrite list_lookup_insert_eq by by eapply lookup_lt_Some.
      split; [done|]. eapply same_identity_trans; [done|by split].
    + exists r1. by rewrite list_lookup_insert_ne by done.
Qed.
(** In a world built through the interface the [child_runs] of a run are
    exactly the runs that name it as their [parent_run], each once, in the
    order of their creation. *)
Theorem child_runs_are_the_children (w : World) (p : addr) (rp : RunTree) :
  reachable w →
  heap w !! p = Some rp →
  child_runs rp = children_of (heap w) p
  ∧ NoDup (child_runs rp)
  ∧ ∀ c, c ∈ child_runs rp
         ↔ ∃ rc, heap w !! c = Some rc ∧ parent_run rc = Some p.
Proof.
  intros Hr Hp.
  pose proof (wf_children _ (reachable_well_formed w Hr) p rp Hp) as ->.
  split; [done|]. split.
  - apply NoDup_filter, NoDup_seq.
  - intros c. unfold children_of. rewrite list_elem_of_filter. split.
    + intros [Hc _]. destruct (heap w !! c) as [rc|]; [|done].
      exists rc. split; [done|]. by injection Hc.
    + intros (rc & Hc & Hpar). rewrite Hc. simpl. split; [by rewrite Hpar|].
      apply elem_of_seq. apply lookup_lt_Some in Hc. lia.
Qed.

Lemma child_runs_are_the_children_witness :
  ∃ rp, heap example_deep !! 1%nat = Some rp
        ∧ child_runs rp = children_of (heap example_deep) 1.
Proof.
  assert (Hx : ∃ rp, heap example_deep !! 1%nat = Some rp)
    by (eexists; vm_compute; reflexivity).
  destruct Hx as (rp & Hp). exists rp. split; [exact Hp|].
  apply (child_runs_are_the_children example_deep 1 rp).
  - apply reachable_run, reachable_fresh.
  - exact Hp.
Defined.

(** In a world built through the interface every run has
    [1 ≤ execution_order ≤ child_execution_order], and a child has an
    [execution_order] above that of its parent and at most one above its
    parent's [child_execution_order]. *)
Theorem execution_order_bounds (w : World) (a : addr) (r : RunTree) :
  reachable w →
  heap w !! a = Some r →
  1 ≤ execution_order r ≤ child_execution_order r
  ∧ ∀ p rp, parent_run r = Some p → heap w !! p = Some rp →
      execution_order rp < execution_order r ≤ child_execution_order rp + 1.
Proof.
  intros Hr Ha. pose proof (reachable_well_formed w Hr) as Hwf.
  split; [by eapply wf_order|].
  intros p rp Hpar Hp. by eapply wf_parent.
Qed.

Lemma execution_order_bounds_witness :
  ∃ r, heap example_deep !! 4%nat = Some r
       ∧ 1 ≤ execution_order r ≤ child_execution_order r.
Proof.
  assert (Hx : ∃ r, heap example_deep !! 4%nat = Some r)
    by (eexists; vm_compute; reflexivity).
  destruct Hx as (r & Ha). exists r. split; [exact Ha|].
  apply (execution_order_bounds example_deep 4 r).
  - apply reachable_run, reachable_fresh.
  - exact Ha.
Defined.

(** In a world built through the interface a child has the session name
    and the client of its parent. *)
Theorem child_inherits_session_and_client (w : World) (c p : addr)
    (rc rp : RunTree) :
  reachable w →
  heap w !! c = Some rc →
  parent_run rc = Some p →
  heap w !! p = Some rp →
  session_name rc = session_name rp ∧ client rc = client rp.
Proof.
  intros Hr Hc Hpar Hp.
  by destruct (wf_parent _ (reachable_well_formed w Hr) c rc p rp Hc Hpar Hp)
    as (_ & ? & ? & _).
Qed.

Lemma child_inherits_session_and_client_witness :
  ∃ rc rp, heap example_family !! 2%nat = Some rc
           ∧ heap example_family !! 1%nat = Some rp
           ∧ session_name rc = session_name rp ∧ client rc = client rp.
Proof.
  assert (Hx : ∃ rc rp, heap example_family !! 2%nat = Some rc
                        ∧ heap example_family !! 1%nat = Some rp
                        ∧ parent_run rc = Some 1%nat)
    by (eexists _, _; vm_compute; repeat split; reflexivity).
  destruct Hx as (rc & rp & Hc & Hp & Hpar). exists rc, rp.
  split; [exact Hc|]. split; [exact Hp|].
  apply (child_inherits_session_and_client example_family 2 1 rc rp).
  - apply reachable_run, reachable_fresh.
  - exact Hc.
  - exact Hpar.
  - exact Hp.
Defined.

(** In a world built through the interface, of two children of the same
    run the one created later never has the smaller [execution_order]. *)
Theorem younger_sibling_not_before_elder (w : World) (a b p : addr)
    (ra rb : RunTree) :
  reachable w →
  (a < b)%nat →
  heap w !! a = Some ra →
  heap w !! b = Some rb →
  parent_run ra = Some p →
  parent_run rb = Some p →
  execution_order ra ≤ execution_order rb.
Proof.
  intros Hr Hab Ha Hb Hpa Hpb.
  by eapply (wf_siblings _ (reachable_well_formed w Hr) a b).
Qed.

Lemma younger_sibling_not_before_elder_witness :
  ∃ ra rb, heap example_deep !! 2%nat = Some ra
           ∧ heap example_deep !! 4%nat = Some rb
           ∧ execution_order ra ≤ execution_order rb.
Proof.
  assert (Hx : ∃ ra rb, heap example_deep !! 2%nat = Some ra
                        ∧ heap example_deep !! 4%nat = Some rb
                        ∧ parent_run ra = Some 1%nat
                        ∧ parent_run rb = Some 1%nat)
    by (eexists _, _; vm_compute; repeat split; reflexivity).
  destruct Hx as (ra & rb & Ha & Hb & Hpa & Hpb). exists ra, rb.
  split; [exact Ha|]. split; [exact Hb|].
  apply (younger_sibling_not_before_elder example_deep 2 4 1 ra rb).
  - apply reachable_run, reachable_fresh.
  - lia.
  - exact Ha.
  - exact Hb.
  - exact Hpa.
  - exact Hpb.
Defined.

(** Whatever calls a program makes, a run that exists stays at its
    address and keeps its name, [id], parent, session, [execution_order],
    client, [start_time], [extra], [serialized], [inputs],
    [reference_example_id], [run_type] and [parent_run_id]. *)
Theorem fields_fixed_at_construction (ops : list Op) (w : World) (m : addr)
    (r : RunTree) :
  heap w !! m = Some r →
  ∃ r', heap (run ops w) !! m = Some r' ∧ same_identity r r'.
Proof.
  revert w r. induction ops as [|op ops IH]; intros w r Hm.
  - exists r. split; [done|apply same_identity_refl].
  - destruct (heap_step_identity _ _ m r (after_heap_step op w) Hm)
      as (r1 & Hm1 & Hid1).
    destruct (IH _ _ Hm1) as (r2 & Hm2 & Hid2).
    exists r2. rewrite run_cons. split; [done|].
    by eapply same_identity_trans.
Qed.

Lemma fields_fixed_at_construction_witness :
  ∃ r r', heap example_pair !! 1%nat = Some r
          ∧ heap (run [OEnd 1 (Some ∅) (Some "late") None; OPatch 1]
                    example_pair) !! 1%nat = Some r'
          ∧ same_identity r r'.
Proof.
  assert (Hx : ∃ r, heap example_pair !! 1%nat = Some r)
    by (eexists; vm_compute; reflexivity).
  destruct Hx as (r & Hm).
  destruct (fields_fixed_at_construction
              [OEnd 1 (Some ∅) (Some "late") None; OPatch 1] example_pair 1 r
              Hm) as (r' & Hm' & Hid).
  exists r, r'. split; [exact Hm|]. split; [exact Hm'|exact Hid].
Defined.

(** Once [end] has been called on a child, every child that its parent
    gets afterwards, whatever happens in between, has a larger
    [execution_order]. *)
Theorem child_after_ended_sibling_is_later (w : World) (c p : addr)
    (rc : RunTree) (o : option Dict) (e : option string)
    (t : option datetime) (ops : list Op) (nm rt : string) (kw : Kwargs) :
  reachable w →
  heap w !! c = Some rc →
  parent_run rc = Some p →
  ∃ (n : addr) (w' : World) (rn : RunTree),
    create_child p nm rt kw (run ops (after (OEnd c o e t) w)) = Val n w'
    ∧ heap w' !! n = Some rn
    ∧ parent_run rn = Some p
    ∧ execution_order rc < execution_order rn.
Proof.
  intros Hr Hc Hpar. pose proof (reachable_well_formed w Hr) as Hwf.
  destruct (tree_shaped_parent_live _ _ _ _ (wf_tree _ Hwf) Hc Hpar)
    as (Hne & pr & Hp).
  pose proof (wf_order _ Hwf c rc Hc) as Hord.
  assert (H1 : ∃ p1, heap (after (OEnd c o e t) w) !! p = Some p1
                     ∧ child_execution_order rc ≤ child_execution_order p1).
  { unfold after, exec. rewrite (end_unfold _ _ _ _ _ rc Hc). cbv zeta.
    rewrite Hpar, list_lookup_insert_ne, Hp by done.
    autorewrite with world. eexists.
    rewrite list_lookup_insert_eq
      by (rewrite length_insert; by eapply lookup_lt_Some).
    split; [done|]. simpl. lia. }
  destruct H1 as (p1 & Hp1 & Hge1).
  destruct (run_node ops _ p p1 Hp1) as (p2 & Hp2 & _ & _ & _ & Hge2).
  rewrite (create_child_unfold _ _ _ _ _ p2 Hp2). cbv zeta.
  eexists _, _, _. split; [done|]. autorewrite with world.
  pose proof (lookup_lt_Some _ _ _ Hp2) as Hlt.
  rewrite list_lookup_insert_ne by lia.
  split; [by apply list_lookup_middle|]. split; [done|]. simpl. lia.
Qed.

Lemma child_after_ended_sibling_is_later_witness :
  ∃ (n : addr) (w' : World) (rn : RunTree),
    create_child 0 "c1" "llm" no_kwargs
      (run [OPost 1 true] (after (OEnd 1 None None None) example_pair))
    = Val n w'
    ∧ heap w' !! n = Some rn
    ∧ 2 < execution_order rn.
Proof.
  assert (Hx : ∃ rc, heap example_pair !! 1%nat = Some rc
                     ∧ parent_run rc = Some 0%nat
                     ∧ execution_order rc = 2)
    by (eexists; vm_compute; repeat split; reflexivity).
  destruct Hx as (rc & Hc & Hpar & Heo).
  destruct (child_after_ended_sibling_is_later example_pair 1 0 rc None None
              None [OPost 1 true] "c1" "llm" no_kwargs)
    as (n & w' & rn & Hcall & Hn & _ & Hlt).
  - apply reachable_run, reachable_fresh.
  - exact Hc.
  - exact Hpar.
  - exists n, w', rn. split; [exact Hcall|]. split; [exact Hn|].
    rewrite <- Heo. exact Hlt.
Defined.

(** ** Decorated calls as programs *)

Lemma reachable_after (op : Op) (w : World) : reachable w → reachable (after op w).
Proof. intros H. by apply (reachable_run [op]). Qed.

Lemma create_child_after (w : World) (self : addr) (nm rt : string)
    (kw : Kwargs) (p : RunTree) :
  heap w !! self = Some p →
  ∃ st et,
    create_child self nm rt kw w
    = Val (length (heap w)) (after (OCreateChild self nm rt kw) w)
    ∧ heap (after (OCreateChild self nm rt kw) w) !! length (heap w)
      = Some (child_record self p nm rt kw
                (default (uuid4_at w (uuid4_calls w)) (kw_run_id kw)) st et).
Proof.
  intros Hp. pose proof (lookup_lt_Some _ _ _ Hp) as Hlt.
  unfold after, exec, forget, bind, ret.
  rewrite (create_child_unfold _ _ _ _ _ p Hp). cbv beta iota zeta.
  eexists _, _. split; [done|]. autorewrite with world.
  rewrite list_lookup_insert_ne by lia. by apply list_lookup_middle.
Qed.

Lemma root_RunTree_after (w : World) (nm rt : string) (sn : option string)
    (si : option UUID) (kw : Kwargs) :
  ∃ c st,
    root_RunTree nm rt sn si kw w
    = Val (length (heap w)) (after (ORunTree nm rt sn si kw) w)
    ∧ heap (after (ORunTree nm rt sn si kw) w) !! length (heap w)
      = Some (root_record nm rt sn si kw
                (default (uuid4_at w (uuid4_calls w)) (kw_run_id kw)) c st).
Proof.
  unfold after, exec, forget, bind, ret. rewrite root_RunTree_unfold.
  cbv beta iota zeta.
  eexists _, _. split; [done|]. autorewrite with world.
  by apply list_lookup_middle.
Qed.

Lemma post_after (w : World) (self : addr) (r : RunTree) (x : bool) :
  channel_ok w →
  heap w !! self = Some r →
  ∃ f : Future,
    post self x w = Val f (after (OPost self x) w)
    ∧ heap (after (OPost self x) w) = heap w
    ∧ transport (after (OPost self x) w) = transport w
    ∧ extends [create_run r x] w (after (OPost self x) w).
Proof.
  intros Hok Hr.
  destruct (post_channel w self r x Hok Hr) as (f & w' & Hp & Hh & Ht & He).
  exists f. unfold after, exec, forget, bind. by rewrite Hp.
Qed.

Lemma patch_after (w : World) (self : addr) (r : RunTree) :
  channel_ok w →
  heap w !! self = Some r →
  ∃ f : Future, patch self w = Val f (after (OPatch self) w).
Proof.
  intros Hok Hr.
  destruct (patch_channel w self r Hok Hr) as (f & w' & Hp & _).
  exists f. unfold after, exec, forget, bind. by rewrite Hp.
Qed.

Lemma end_after (w : World) (self : addr) (r : RunTree) (o : option Dict)
    (e : option string) (t : option datetime) :
  heap w !! self = Some r →
  (∀ p, parent_run r = Some p → is_Some (heap w !! p)) →
  end_ self o e t w = Val tt (after (OEnd self o e t) w)
  ∧ ∃ r', heap (after (OEnd self o e t) w) !! self = Some r'.
Proof.
  intros Hr Hlive.
  destruct (end_success w self r o e t Hr Hlive) as (w' & He & Hn & _).
  unfold after, exec. rewrite He. eauto.
Qed.

(** [end] and then [patch] on a run of a world built through the
    interface: both return, and the world is that of the two calls. *)
Lemma end_patch_after {A} (k : M A) (w : World) (c : addr) (r : RunTree)
    (o : option Dict) (e : option string) :
  reachable w →
  heap w !! c = Some r →
  (end_ c o e None ;;; patch c ;;; k) w
  = k (run [OEnd c o e None; OPatch c] w).
Proof.
  intros Hreach Hc.
  destruct (reachable_usable w c r Hreach Hc) as [(r0 & Hc0 & Hlive) _].
  destruct (end_after w c r0 o e None Hc0 Hlive) as (Hend & r' & Hc').
  destruct (patch_after (after (OEnd c o e None) w) c r') as (f & Hpatch);
    [by apply reachable_channel_ok, reachable_after|done|].
  unfold bind at 1. rewrite Hend. unfold bind at 1. by rewrite Hpatch.
Qed.

(** The run that [start_run] creates, and the world it leaves. *)
Lemma start_run_child (rt : string) (nm : option string)
    (ser : option Dict) (outer : Dict) (func : PyFunc) (args : list Value)
    (sn : option string) (si ex_id run_id : option UUID) (extra_ : option Dict)
    (kwargs : Dict) (w : World) (p : addr) (rp : RunTree) :
  reachable w →
  kwargs !! "run" = Some (VRun p) →
  heap w !! p = Some rp →
  let c := length (heap w) in
  let before :=
    [OCreateChild p (str_or nm (__name__ func)) rt
       (mkKwargs run_id ser (Some (_get_inputs args (delete "run" kwargs)))
          None None None None None
          (Some (if truthy extra_ then dict_merge outer (default ∅ extra_)
                 else outer)));
     OPost c true] in
  ∃ st et,
    start_run rt nm ser outer func args sn si ex_id run_id extra_ kwargs w
    = Val (c, delete "run" kwargs) (run before w)
    ∧ heap (run before w) !! c
      = Some (child_record p rp (str_or nm (__name__ func)) rt
                (mkKwargs run_id ser
                   (Some (_get_inputs args (delete "run" kwargs)))
                   None None None None None
                   (Some (if truthy extra_
                          then dict_merge outer (default ∅ extra_)
                          else outer)))
                (default (uuid4_at w (uuid4_calls w)) run_id) st et)
    ∧ transport (run before w) = transport w
    ∧ queued (run before w) =
        queued w ++
        [create_run
           (child_record p rp (str_or nm (__name__ func)) rt
              (mkKwargs run_id ser
                 (Some (_get_inputs args (delete "run" kwargs)))
                 None None None None None
                 (Some (if truthy extra_
                        then dict_merge outer (default ∅ extra_)
                        else outer)))
                (default (uuid4_at w (uuid4_calls w)) run_id) st et) true].
Proof.
  intros Hreach Hk Hp c before.
  set (kw := mkKwargs _ _ _ _ _ _ _ _ _).
  set (name_ := str_or nm (__name__ func)).
  destruct (create_child_after w p name_ rt kw rp Hp) as (st & et & Hcc & Hc).
  set (op := OCreateChild p name_ rt kw) in *.
  destruct (store_call_channel op w I) as (Hex & Hg & Htr).
  destruct (post_after (after op w) c (child_record p rp name_ rt kw
                 (default (uuid4_at w (uuid4_calls w)) run_id) st et)
              true) as (f & Hpost & Hh & Ht & Hext);
    [by apply reachable_channel_ok, reachable_after|exact Hc|].
  exists st, et.
  assert (Hrun : run before w = after (OPost c true) (after op w)) by done.
  rewrite Hrun. split; [|split; [by rewrite Hh|split; [congruence|]]].
  - unfold start_run. rewrite Hk. fold name_ kw.
    unfold bind at 1. unfold bind at 1. fold c in Hcc. rewrite Hcc.
    unfold ret at 1. cbn [fst]. unfold bind. by rewrite Hpost.
  - destruct Hext as (_ & Hb & _). unfold backlog in Hb.
    rewrite Ht, <- app_assoc in Hb. apply app_inv_head in Hb.
    rewrite Hb. f_equal. unfold queued. by rewrite Hex, Hg.
Qed.

Lemma start_run_root (rt : string) (nm : option string)
    (ser : option Dict) (outer : Dict) (func : PyFunc) (args : list Value)
    (sn : option string) (si ex_id run_id : option UUID) (extra_ : option Dict)
    (kwargs : Dict) (w : World) :
  reachable w →
  kwargs !! "run" = None →
  let c := length (heap w) in
  let kw :=
    mkKwargs None (Some (dict_or ser {[ "name" := opt_str nm ]}))
      (Some (_get_inputs args kwargs)) None None ex_id None None
      (Some (if truthy extra_ then dict_merge outer (default ∅ extra_)
             else outer)) in
  let before := [ORunTree (str_or nm (__name__ func)) rt sn si kw;
                 OPost c true] in
  ∃ cl st,
    start_run rt nm ser outer func args sn si ex_id run_id extra_ kwargs w
    = Val (c, kwargs) (run before w)
    ∧ heap (run before w) !! c
      = Some (root_record (str_or nm (__name__ func)) rt sn si kw
                (uuid4_at w (uuid4_calls w)) cl st)
    ∧ transport (run before w) = transport w
    ∧ queued (run before w) =
        queued w ++
        [create_run
           (root_record (str_or nm (__name__ func)) rt sn si kw
                (uuid4_at w (uuid4_calls w)) cl st) true].
Proof.
  intros Hreach Hk c kw before.
  set (name_ := str_or nm (__name__ func)) in *.
  destruct (root_RunTree_after w name_ rt sn si kw) as (cl & st & Hcc & Hc).
  set (op := ORunTree name_ rt sn si kw) in *.
  destruct (store_call_channel op w I) as (Hex & Hg & Htr).
  destruct (post_after (after op w) c (root_record name_ rt sn si kw
                (uuid4_at w (uuid4_calls w)) cl st)
              true) as (f & Hpost & Hh & Ht & Hext);
    [by apply reachable_channel_ok, reachable_after|exact Hc|].
  exists cl, st.
  assert (Hrun : run before w = after (OPost c true) (after op w)) by done.
  rewrite Hrun. split; [|split; [by rewrite Hh|split; [congruence|]]].
  - unfold start_run. rewrite Hk. fold name_ kw.
    unfold bind at 1. unfold bind at 1. fold c in Hcc. rewrite Hcc.
    unfold ret at 1. cbn [fst]. unfold bind. by rewrite Hpost.
  - destruct Hext as (_ & Hb & _). unfold backlog in Hb.
    rewrite Ht, <- app_assoc in Hb. apply app_inv_head in Hb.
    rewrite Hb. f_equal. all: unfold queued; by rewrite Hex, Hg.
Qed.

(** [wrapper] from the point where the run exists: [func] is called, the
    run is ended with the result or with the error and patched. *)
Lemma wrapper_after_start (rt : string) (nm : option string)
    (ser : option Dict) (outer : Dict) (func : PyFunc) (args : list Value)
    (sn : option string) (si ex_id run_id : option UUID) (extra_ : option Dict)
    (kwargs kwargs' : Dict) (w w1 : World) (c : addr) :
  start_run rt nm ser outer func args sn si ex_id run_id extra_ kwargs w
  = Val (c, kwargs') w1 →
  wrapper rt nm ser outer func args sn si ex_id run_id extra_ kwargs w =
  match call_func func args c kwargs' w1 with
  | Val v w2 =>
      (end_ c (Some {[ "output" := v ]}) None None ;;;
       patch c ;;; ret v) w2
  | Exc e w2 =>
      if is_Exception e then
        (end_ c None (Some (exc_str e)) None ;;; patch c ;;; raise e) w2
      else Exc e w2
  | Fault => Fault
  end.
Proof.
  intros Hstart.
  unfold wrapper. unfold bind at 1. rewrite Hstart. cbn [fst snd].
  unfold bind at 1, try_except.
  destruct (call_func func args c kwargs' w1) as [v w2|e w2|]; [done| |done].
  destruct (is_Exception e); [|done]. unfold bind, raise.
  destruct (end_ c None (Some (exc_str e)) None w2) as [[] w'| |]; [|done..].
  by destruct (patch c w').
Qed.

Lemma dict_or_nonempty (d dflt : Dict) : d ≠ ∅ → dict_or (Some d) dflt = d.
Proof. intros Hd. simpl. by rewrite bool_decide_eq_false_2. Qed.

Lemma get_inputs_nonempty (args : list Value) (kwargs : Dict) :
  _get_inputs args kwargs ≠ ∅.
Proof.
  intros H. apply (f_equal (lookup "args")) in H.
  unfold _get_inputs in H. by rewrite lookup_insert_eq, lookup_empty in H.
Qed.

(** [end] on a child lifts the counter of its parent at least to that of
    the child. *)
Lemma end_raises_parent_counter (w : World) (c p : addr) (rc : RunTree)
    (o : option Dict) (e : option string) (t : option datetime) :
  tree_shaped (heap w) →
  heap w !! c = Some rc →
  parent_run rc = Some p →
  ∃ p1, heap (after (OEnd c o e t) w) !! p = Some p1
        ∧ child_execution_order rc ≤ child_execution_order p1.
Proof.
  intros Ht Hc Hpar.
  destruct (tree_shaped_parent_live _ _ _ _ Ht Hc Hpar) as (Hne & pr & Hp).
  unfold after, exec. rewrite (end_unfold _ _ _ _ _ rc Hc). cbv zeta.
  rewrite Hpar, list_lookup_insert_ne, Hp by done.
  autorewrite with world. eexists.
  rewrite list_lookup_insert_eq
    by (rewrite length_insert; by eapply lookup_lt_Some).
  split; [done|]. simpl. lia.
Qed.


(** A decorated call that is given a parent as [run], in a world built
    through the interface: before the function is called, a child of that
    parent has been created and announced.  The child is named after the
    decorator's [name] or else after the function, it takes the next
    [execution_order] of the parent, the [run_id] of the call if there is
    one, and the parent's session name; its inputs are the positional
    arguments and the keyword arguments without [run], which are also the
    keyword arguments left for the function; the [reference_example_id]
    of the call is not used. *)
Theorem decorated_call_starts_child (rt : string) (nm : option string)
    (ser : option Dict) (outer : Dict) (func : PyFunc) (args : list Value)
    (sn : option string) (si ex_id run_id : option UUID)
    (extra_ : option Dict) (kwargs : Dict) (w : World) (p : addr)
    (rp : RunTree) :
  reachable w →
  kwargs !! "run" = Some (VRun p) →
  heap w !! p = Some rp →
  ∃ (w1 : World) (rc : RunTree),
    start_run rt nm ser outer func args sn si ex_id run_id extra_ kwargs w
    = Val (length (heap w), delete "run" kwargs) w1
    ∧ reachable w1
    ∧ heap w1 !! length (heap w) = Some rc
    ∧ parent_run rc = Some p
    ∧ name rc = str_or nm (__name__ func)
    ∧ run_type rc = rt
    ∧ inputs rc = _get_inputs args (delete "run" kwargs)
    ∧ execution_order rc = child_execution_order rp + 1
    ∧ id rc = default (uuid4_at w (uuid4_calls w)) run_id
    ∧ session_name rc = session_name rp
    ∧ reference_example_id rc = None
    ∧ transport w1 = transport w
    ∧ queued w1 = queued w ++ [create_run rc true].
Proof.
  intros Hreach Hk Hp.
  destruct (start_run_child rt nm ser outer func args sn si ex_id run_id
              extra_ kwargs w p rp Hreach Hk Hp)
    as (st & et & Hs & Hc & Ht & Hq).
  eexists _, _. split; [exact Hs|]. split; [by apply reachable_run|].
  split; [exact Hc|]. do 3 (split; [done|]).
  split; [apply dict_or_nonempty, get_inputs_nonempty|].
  do 4 (split; [done|]). split; [exact Ht|exact Hq].
Qed.

Lemma decorated_call_starts_child_witness :
  ∃ (w1 : World) (rc : RunTree),
    start_run "llm" None None ∅ answering_func [VInt 1] None None None None
      None {[ "run" := VRun 0 ]} example_pair
    = Val (2%nat, ∅) w1
    ∧ heap w1 !! 2%nat = Some rc
    ∧ name rc = "answers"
    ∧ execution_order rc = 2.
Proof.
  assert (Hx : ∃ rp, heap example_pair !! 0%nat = Some rp
                     ∧ child_execution_order rp = 1
                     ∧ length (heap example_pair) = 2%nat)
    by (eexists; vm_compute; repeat split; reflexivity).
  destruct Hx as (rp & Hp & Hce & Hlen).
  destruct (decorated_call_starts_child "llm" None None ∅ answering_func
              [VInt 1] None None None None None {[ "run" := VRun 0 ]}
              example_pair 0 rp)
    as (w1 & rc & Hs & _ & Hc & _ & Hn & _ & _ & He & _).
  - apply reachable_run, reachable_fresh.
  - vm_compute. reflexivity.
  - exact Hp.
  - exists w1, rc. rewrite Hlen in Hs, Hc. rewrite delete_singleton_eq in Hs.
    split; [exact Hs|]. split; [exact Hc|]. split; [exact Hn|].
    rewrite He, Hce. reflexivity.
Defined.
(** A decorated call that is given no [run], in a world built through
    the interface: before the function is called, a run without parent has
    been created and announced, and the keyword arguments go to the
    function as they are.  The run carries the [reference_example_id] and
    the [session_id] of the call; its [id] is a fresh one, the [run_id] of
    the call is not used; and when the decorator was given no [serialized]
    the run's [serialized] names the decorator's [name], which is [None]
    when that was left out, not the name of the function. *)
Theorem decorated_call_starts_root (rt : string) (nm : option string)
    (ser : option Dict) (outer : Dict) (func : PyFunc) (args : list Value)
    (sn : option string) (si ex_id run_id : option UUID)
    (extra_ : option Dict) (kwargs : Dict) (w : World) :
  reachable w →
  kwargs !! "run" = None →
  ∃ (w1 : World) (rc : RunTree),
    start_run rt nm ser outer func args sn si ex_id run_id extra_ kwargs w
    = Val (length (heap w), kwargs) w1
    ∧ reachable w1
    ∧ heap w1 !! length (heap w) = Some rc
    ∧ parent_run rc = None
    ∧ name rc = str_or nm (__name__ func)
    ∧ run_type rc = rt
    ∧ inputs rc = _get_inputs args kwargs
    ∧ serialized rc = dict_or ser {[ "name" := opt_str nm ]}
    ∧ execution_order rc = 1
    ∧ id rc = uuid4_at w (uuid4_calls w)
    ∧ reference_example_id rc = ex_id
    ∧ session_id rc = si
    ∧ transport w1 = transport w
    ∧ queued w1 = queued w ++ [create_run rc true].
Proof.
  intros Hreach Hk.
  destruct (start_run_root rt nm ser outer func args sn si ex_id run_id
              extra_ kwargs w Hreach Hk)
    as (cl & st & Hs & Hc & Ht & Hq).
  eexists _, _. split; [exact Hs|]. split; [by apply reachable_run|].
  split; [exact Hc|]. do 9 (split; [done|]). split; [exact Ht|exact Hq].
Qed.

Lemma decorated_call_starts_root_witness :
  ∃ (w1 : World) (rc : RunTree),
    start_run "chain" None None ∅ answering_func [] None None None (Some 7%N)
      None ∅ example_fresh
    = Val (0%nat, ∅) w1
    ∧ heap w1 !! 0%nat = Some rc
    ∧ id rc = 0%N
    ∧ serialized rc = {[ "name" := VNone ]}.
Proof.
  destruct (decorated_call_starts_root "chain" None None ∅ answering_func []
              None None None (Some 7%N) None ∅ example_fresh)
    as (w1 & rc & Hs & _ & Hc & _ & _ & _ & _ & Hser & _ & Hid & _).
  - apply reachable_fresh.
  - reflexivity.
  - exists w1, rc. split; [exact Hs|]. split; [exact Hc|].
    split; [exact Hid|exact Hser].
Defined.

(** A decorated call whose function does what some program over the
    interface does is itself such a program: once the run [c] of the call
    exists, the world that [wrapper] leaves is that of the function's
    calls followed by [end] and [patch] on [c], with the result as output
    when the function returns and with the message as error when it raises
    an [Exception].  So the world stays one that is built through the
    interface. *)
Theorem decorated_call_is_a_program (rt : string) (nm : option string)
    (ser : option Dict) (outer : Dict) (func : PyFunc) (args : list Value)
    (sn : option string) (si ex_id run_id : option UUID)
    (extra_ : option Dict) (kwargs kwargs' : Dict) (w w1 : World) (c : addr)
    (body : list Op) :
  start_run rt nm ser outer func args sn si ex_id run_id extra_ kwargs w
  = Val (c, kwargs') w1 →
  reachable w1 →
  is_Some (heap w1 !! c) →
  (∀ v, call_func func args c kwargs' w1 = Val v (run body w1) →
        wrapper rt nm ser outer func args sn si ex_id run_id extra_ kwargs w
        = Val v (run (body ++ [OEnd c (Some {[ "output" := v ]}) None None;
                               OPatch c]) w1))
  ∧ (∀ e, call_func func args c kwargs' w1 = Exc e (run body w1) →
          is_Exception e = true →
          wrapper rt nm ser outer func args sn si ex_id run_id extra_ kwargs w
          = Exc e (run (body ++ [OEnd c None (Some (exc_str e)) None;
                                 OPatch c]) w1)).
Proof.
  intros Hstart Hreach [r1 Hc].
  destruct (run_node body w1 c r1 Hc) as (r2 & Hc2 & _).
  pose proof (reachable_run body w1 Hreach) as Hreach2.
  rewrite (wrapper_after_start _ _ _ _ _ _ _ _ _ _ _ _ _ _ _ _ Hstart).
  split.
  - intros v ->. rewrite run_app.
    by rewrite (end_patch_after (ret v) _ c r2).
  - intros e -> ->. rewrite run_app.
    by rewrite (end_patch_after (@raise Value e) _ c r2).
Qed.

Lemma decorated_call_is_a_program_witness :
  wrapper "chain" None None ∅ answering_func [] None None None None None ∅
    example_fresh
  = Val (VInt 42)
      (run ([] ++ [OEnd 0 (Some {[ "output" := VInt 42 ]}) None None;
                   OPatch 0])
         (run [ORunTree "answers" "chain" None None
                 (mkKwargs None (Some {[ "name" := VNone ]})
                    (Some (_get_inputs [] ∅)) None None None None None
                    (Some ∅));
               OPost 0 true] example_fresh)).
Proof.
  destruct (decorated_call_is_a_program "chain" None None ∅ answering_func []
              None None None None None ∅ ∅ example_fresh
              (run [ORunTree "answers" "chain" None None
                      (mkKwargs None (Some {[ "name" := VNone ]})
                         (Some (_get_inputs [] ∅)) None None None None None
                         (Some ∅));
                    OPost 0 true] example_fresh) 0 []) as [Hval _].
  - vm_compute. reflexivity.
  - apply reachable_run, reachable_fresh.
  - eexists. vm_compute. reflexivity.
  - exact (Hval (VInt 42) eq_refl).
Defined.

(** Calls decorated one after the other under the same parent are
    numbered in that order: when a decorated call has returned, the run
    of the next decorated call that is given the same parent as [run] has
    a larger [execution_order]. *)
Theorem decorated_calls_are_numbered_in_order
    (rt : string) (nm : option string) (ser : option Dict) (outer : Dict)
    (func : PyFunc) (args : list Value) (sn : option string)
    (si ex_id run_id : option UUID) (extra_ : option Dict) (kwargs : Dict)
    (rt' : string) (nm' : option string) (ser' : option Dict) (outer' : Dict)
    (func' : PyFunc) (args' : list Value) (sn' : option string)
    (si' ex_id' run_id' : option UUID) (extra_' : option Dict)
    (kwargs' : Dict)
    (w : World) (p : addr) (rp : RunTree) (body : list Op) (v : Value) :
  reachable w →
  heap w !! p = Some rp →
  kwargs !! "run" = Some (VRun p) →
  kwargs' !! "run" = Some (VRun p) →
  (∀ w1, call_func func args (length (heap w)) (delete "run" kwargs) w1
         = Val v (run body w1)) →
  ∃ (w2 w3 : World) (c' : addr) (r r' : RunTree),
    wrapper rt nm ser outer func args sn si ex_id run_id extra_ kwargs w
    = Val v w2
    ∧ start_run rt' nm' ser' outer' func' args' sn' si' ex_id' run_id' extra_'
        kwargs' w2
      = Val (c', delete "run" kwargs') w3
    ∧ heap w3 !! length (heap w) = Some r
    ∧ heap w3 !! c' = Some r'
    ∧ parent_run r = Some p
    ∧ parent_run r' = Some p
    ∧ execution_order r < execution_order r'.
Proof.
  intros Hreach Hp Hk Hk' Hfunc. set (c := length (heap w)) in *.
  destruct (start_run_child rt nm ser outer func args sn si ex_id run_id
              extra_ kwargs w p rp Hreach Hk Hp)
    as (st & et & Hs & Hc & _). cbv zeta in Hs, Hc. fold c in Hs, Hc.
  set (w1 := run _ w) in *.
  assert (Hreach1 : reachable w1) by by apply reachable_run.
  destruct (run_node body w1 c _ Hc) as (r2 & Hc2 & Heo2 & Hpar2 & _).
  simpl in Heo2, Hpar2.
  pose proof (reachable_run body w1 Hreach1) as Hreach2.
  set (w2 := run body w1) in *.
  set (fin := [OEnd c (Some {[ "output" := v ]}) None None; OPatch c]).
  assert (Hw : wrapper rt nm ser outer func args sn si ex_id run_id extra_
                 kwargs w = Val v (run fin w2)).
  { rewrite (wrapper_after_start _ _ _ _ _ _ _ _ _ _ _ _ _ _ _ _ Hs).
    rewrite (Hfunc w1). fold w2.
    by rewrite (end_patch_after (ret v) _ c r2). }
  pose proof (reachable_run fin w2 Hreach2) as Hreach3.
  destruct (end_raises_parent_counter w2 c p r2
              (Some {[ "output" := v ]}) None None
              (reachable_tree_shaped _ Hreach2) Hc2 Hpar2)
    as (p1 & Hp1 & Hge).
  assert (Hp3 : heap (run fin w2) !! p = Some p1).
  { unfold fin. rewrite run_cons. unfold run. simpl.
    rewrite heap_const_after; [done|].
    apply heap_const_forget, heap_const_patch. }
  destruct (run_node fin w2 c r2 Hc2) as (r3 & Hc3 & Heo3 & Hpar3 & _).
  pose proof (wf_order _ (reachable_well_formed _ Hreach2) c r2 Hc2) as Hord.
  destruct (start_run_child rt' nm' ser' outer' func' args' sn' si' ex_id'
              run_id' extra_' kwargs' (run fin w2) p p1 Hreach3 Hk' Hp3)
    as (st' & et' & Hs' & Hc' & _). cbv zeta in Hs', Hc'.
  match type of Hc' with
  | heap (run ?b _) !! _ = _ => set (before' := b) in *
  end.
  destruct (run_node before' (run fin w2) c r3 Hc3)
    as (r4 & Hc4 & Heo4 & Hpar4 & _).
  set (w3 := run before' (run fin w2)) in *.
  eexists (run fin w2), w3, _, r4, _.
  split; [exact Hw|]. split; [exact Hs'|]. split; [exact Hc4|].
  split; [exact Hc'|]. split; [congruence|]. split; [done|].
  simpl. lia.
Qed.

Lemma decorated_calls_are_numbered_in_order_witness :
  ∃ (w2 w3 : World) (c' : addr) (r r' : RunTree),
    wrapper "llm" None None ∅ answering_func [] None None None None None
      {[ "run" := VRun 0 ]} example_pair
    = Val (VInt 42) w2
    ∧ start_run "tool" (Some "second") None ∅ failing_func [] None None None
        None None {[ "run" := VRun 0 ]} w2
      = Val (c', delete "run" {[ "run" := VRun 0 ]}) w3
    ∧ heap w3 !! length (heap example_pair) = Some r
    ∧ heap w3 !! c' = Some r'
    ∧ execution_order r < execution_order r'.
Proof.
  assert (Hx : ∃ rp, heap example_pair !! 0%nat = Some rp)
    by (eexists; vm_compute; reflexivity).
  destruct Hx as (rp & Hp).
  destruct (decorated_calls_are_numbered_in_order
              "llm" None None ∅ answering_func [] None None None None None
              {[ "run" := VRun 0 ]}
              "tool" (Some "second") None ∅ failing_func [] None None None
              None None {[ "run" := VRun 0 ]}
              example_pair 0 rp [] (VInt 42))
    as (w2 & w3 & c' & r & r' & Hw & Hs & Hr & Hr' & _ & _ & Hlt).
  - apply reachable_run, reachable_fresh.
  - exact Hp.
  - vm_compute. reflexivity.
  - vm_compute. reflexivity.
  - intros w1. reflexivity.
  - exists w2, w3, c', r, r'. split; [exact Hw|]. split; [exact Hs|].
    split; [exact Hr|]. split; [exact Hr'|exact Hlt].
Defined.

(** ** The version of a test suite *)

Lemma update_version_get (v : datetime) (s : LangSmithTestSuite) :
  get_version (update_version v s)
  = Some (match get_version s with
          | None => v
          | Some c => Z.max c v
          end).
Proof.
  destruct s as [[c|]]; [|done]. unfold get_version, update_version. simpl.
  case_bool_decide; simpl; f_equal; lia.
Qed.


Lemma update_versions_cons v vs s :
  update_versions (v :: vs) s = update_versions vs (update_version v s).
Proof. done. Qed.

(** The version of a suite is the latest of those it was given: after any
    number of [update_version] calls, [get_version] is [None] only when
    there was no call on a new suite, and otherwise it is the version the
    suite had or one of those passed, and none of these is later. *)
Theorem get_version_is_latest (versions : list datetime)
    (self : LangSmithTestSuite) :
  match get_version (update_versions versions self) with
  | None => get_version self = None ∧ versions = []
  | Some m =>
      (get_version self = Some m ∨ m ∈ versions)
      ∧ (∀ v, v ∈ versions → v ≤ m)
      ∧ (∀ c, get_version self = Some c → c ≤ m)
  end.
Proof.
  revert self. induction versions as [|v vs IH]; intros self.
  - simpl. destruct (get_version self) as [m|] eqn:E; [|done].
    split; [by left|]. split; [by intros v Hv; apply elem_of_nil in Hv|].
    intros c [= ->]. lia.
  - rewrite update_versions_cons. specialize (IH (update_version v self)).
    rewrite update_version_get in IH.
    destruct (get_version (update_versions vs (update_version v self)))
      as [m|]; [|by destruct IH].
    destruct IH as (Hin & Hall & Hge). specialize (Hge _ eq_refl).
    split; [|split].
    + destruct Hin as [[= <-]|Hin]; [|right; by right].
      destruct (get_version self) as [c|]; [|right; by left].
      destruct (Z.max_spec c v) as [[_ ->]|[_ ->]]; [right; by left|by left].
    + intros x [->|Hx]%elem_of_cons; [|by apply Hall].
      destruct (get_version self); lia.
    + intros c Hc. rewrite Hc in Hge. lia.
Qed.



(** ** The inputs and outputs of an example *)

Lemma pop_loop_snoc (ks : list string) (k : string) (io : Dict * Dict) :
  foldl (fun io k => pop_output k io) io (ks ++ [k])
  = pop_output k (foldl (fun io k => pop_output k io) io ks).
Proof. by rewrite foldl_snoc. Qed.

Lemma pop_loop_inputs (ks : list string) (inputs outputs : Dict) (k : string) :
  (foldl (fun io k => pop_output k io) (inputs, outputs) ks).1 !! k
  = if decide (k ∈ ks) then None else inputs !! k.
Proof.
  induction ks as [|k' ks IH] using rev_ind.
  - destruct (decide (k ∈ [])) as [H%elem_of_nil|]; done.
  - rewrite pop_loop_snoc. unfold pop_output at 1. simpl.
    destruct (decide (k' = k)) as [->|Hne].
    + rewrite lookup_delete_eq, decide_True; [done|].
      apply elem_of_app. right. by left.
    + rewrite lookup_delete_ne, IH by done.
      destruct (decide (k ∈ ks)) as [Hin|Hnin].
      * rewrite decide_True; [done|]. apply elem_of_app. by left.
      * rewrite decide_False; [done|].
        intros [?|[->|[]%elem_of_nil]%elem_of_cons]%elem_of_app; done.
Qed.

Lemma pop_loop_outputs_other (ks : list string) (inputs outputs : Dict)
    (k : string) :
  k ∉ ks →
  (foldl (fun io k => pop_output k io) (inputs, outputs) ks).2 !! k
  = outputs !! k.
Proof.
  induction ks as [|k' ks IH] using rev_ind; intros Hk; [done|].
  rewrite pop_loop_snoc. unfold pop_output at 1. simpl.
  rewrite not_elem_of_app in Hk. destruct Hk as [Hk Hk'].
  rewrite lookup_insert_ne; [by apply IH|].
  intros ->. apply Hk'. by left.
Qed.

Lemma pop_loop_outputs_last (ks : list string) (inputs outputs : Dict)
    (k : string) :
  (foldl (fun io k => pop_output k io) (inputs, outputs) (ks ++ [k])).2 !! k
  = Some (if decide (k ∈ ks) then VNone else default VNone (inputs !! k)).
Proof.
  rewrite pop_loop_snoc. unfold pop_output at 1. simpl.
  rewrite lookup_insert_eq, pop_loop_inputs. by destruct (decide (k ∈ ks)).
Qed.

Lemma split_outputs_loop (keys : list string) (inputs : Dict) :
  split_outputs (Some keys) inputs
  = foldl (fun io k => pop_output k io) (inputs, ∅) keys.
Proof. by destruct keys. Qed.

(** Output keys that are all different split the arguments of a test:
    after the loop [inputs] holds what it held under the other keys,
    [outputs] holds exactly the output keys, each with the value that
    [inputs] had for it, or with [None] if it had none. *)
Theorem output_keys_split_the_inputs (keys : list string) (inputs : Dict)
    (k : string) :
  NoDup keys →
  (split_outputs (Some keys) inputs).1 !! k
  = (if decide (k ∈ keys) then None else inputs !! k)
  ∧ (split_outputs (Some keys) inputs).2 !! k
    = (if decide (k ∈ keys) then Some (default VNone (inputs !! k))
       else None).
Proof.
  intros Hnd. rewrite split_outputs_loop. split; [apply pop_loop_inputs|].
  destruct (decide (k ∈ keys)) as [Hin|Hnin].
  - apply list_elem_of_split in Hin as (l1 & l2 & ->).
    apply NoDup_app in Hnd as (_ & Hdisj & Hnd2).
    apply NoDup_cons in Hnd2 as [Hk2 _].
    change (k :: l2) with ([k] ++ l2). rewrite app_assoc, foldl_app.
    destruct (foldl _ (inputs, ∅) (l1 ++ [k])) as [i1 o1] eqn:E.
    rewrite pop_loop_outputs_other by done.
    change o1 with ((i1, o1).2). rewrite <- E, pop_loop_outputs_last.
    rewrite decide_False; [done|]. intros H1. apply (Hdisj k H1). by left.
  - by rewrite pop_loop_outputs_other.
Qed.

Lemma output_keys_split_the_inputs_witness :
  (split_outputs (Some ["y"; "z"])
     {[ "x" := VInt 1; "y" := VInt 2 ]}).2 !! "z"
  = Some VNone.
Proof.
  destruct (output_keys_split_the_inputs ["y"; "z"]
              {[ "x" := VInt 1; "y" := VInt 2 ]} "z") as [_ H].
  - apply NoDup_cons. split; [|apply NoDup_singleton].
    intros Hin. apply list_elem_of_singleton in Hin. discriminate Hin.
  - etrans; [exact H|]. vm_compute. reflexivity.
Defined.

(** An output key that is listed twice loses its value: the first turn
    moves the value to [outputs], the later one finds nothing left in
    [inputs] and records [None] over it. *)
Theorem repeated_output_key_loses_value (l1 l2 l3 : list string)
    (inputs : Dict) (k : string) :
  let keys := l1 ++ k :: l2 ++ k :: l3 in
  (split_outputs (Some keys) inputs).1 !! k = None
  ∧ (split_outputs (Some keys) inputs).2 !! k = Some VNone.
Proof.
  intros keys. rewrite split_outputs_loop. split.
  - rewrite pop_loop_inputs, decide_True; [done|].
    apply elem_of_app. right. by left.
  - subst keys. induction l3 as [|k' l3 IH] using rev_ind.
    + replace (l1 ++ k :: l2 ++ [k]) with ((l1 ++ k :: l2) ++ [k])
        by by rewrite <- app_assoc.
      rewrite pop_loop_outputs_last, decide_True; [done|].
      apply elem_of_app. right. by left.
    + replace (l1 ++ k :: l2 ++ k :: l3 ++ [k'])
        with ((l1 ++ k :: l2 ++ k :: l3) ++ [k'])
        by (rewrite <- !app_assoc; simpl; by rewrite <- !app_assoc).
      destruct (decide (k' = k)) as [->|Hne].
      * rewrite pop_loop_outputs_last, decide_True; [done|].
        apply elem_of_app. right. by left.
      * rewrite pop_loop_snoc. unfold pop_output at 1. simpl.
        by rewrite lookup_insert_ne.
Qed.

(** ** The attributes of the package *)

(** The names that the package resolves are exactly those of [__all__]:
    for each of them [__getattr__] gives the version or the object of that
    name from a submodule, and for any other name it raises an
    [AttributeError] that names it.  [__version__] is the empty string
    when the package is not installed. *)
Theorem getattr_resolves_exactly_all (installed : option string)
    (name : string) :
  (name ∈ __all__ ↔ __getattr__ installed name ≠ NoAttribute name)
  ∧ (∀ m a, __getattr__ installed name = ImportedFrom m a → a = name)
  ∧ __getattr__ installed "__version__" = Version (default "" installed).
Proof.
  split; [|split; [|done]].
  - unfold __getattr__, __all__.
    repeat (case_bool_decide; [subst; split; [done|intros _; set_solver]|]).
    split; [|intros Hc; by destruct Hc]. intros Hin.
    repeat (apply elem_of_cons in Hin as [->|Hin]; [done|]).
    by apply elem_of_nil in Hin.
  - intros m a. unfold __getattr__.
    repeat (case_bool_decide; [subst; by intros [= <- <-]|]).
    done.
Qed.
